(** * sd-metadata: the metadata locator, the text parser and the presenter
      of [streamlit_app.py], embedded in Rocq.

    Python values are modelled as follows.
    - [str] is a list of Unicode code points ([N]); a literal is written
      [u "..."] and a line feed is [nl].
    - [bytes] is a list of [Byte.byte].
    - [dict] is an association list kept in insertion order with unique
      keys, updated the way Python updates a dict (an existing key keeps
      its position, a new key goes last).
    - an exception is a value [Raise msg] of the [result] type; [try] /
      [except] is a [match] on it.
    - the third-party calls ([Image.open], [piexif.load],
      [piexif.helper.UserComment.load]) are fields of a [Library] record. *)

From Stdlib Require Import String Ascii.
From Stdlib Require Import List NArith Bool Arith Lia Sorting.Sorted.
From Stdlib Require Import Init.Byte Strings.Byte.
Import ListNotations.

Set Implicit Arguments.

(* ------------------------------------------------------------------ *)
(** * Python built-ins used by the program *)

Module Py.

Definition char := N.
Definition str := list char.
Definition bytes := list byte.

(** String literals: the code points of an ASCII Rocq string. *)
Definition u (s : string) : str := map N_of_ascii (list_ascii_of_string s).

Definition nl : str := [10%N].

Definition str_eq_dec : forall a b : str, {a = b} + {a <> b} :=
  list_eq_dec N.eq_dec.

Definition str_eqb (a b : str) : bool :=
  if str_eq_dec a b then true else false.

Local Open Scope N_scope.

(** [str.isspace] for one code point; the regular expression class [\s]
    of a [str] pattern accepts the same code points. *)
Definition isspace (c : char) : bool :=
  ((9 <=? c) && (c <=? 13)) || ((28 <=? c) && (c <=? 32))
  || (c =? 133) || (c =? 160) || (c =? 5760)
  || ((8192 <=? c) && (c <=? 8202))
  || (c =? 8232) || (c =? 8233) || (c =? 8239) || (c =? 8287)
  || (c =? 12288).

Fixpoint lstrip (s : str) : str :=
  match s with
  | c :: s' => if isspace c then lstrip s' else s
  | [] => []
  end.

Fixpoint rstrip (s : str) : str :=
  match s with
  | [] => []
  | c :: s' =>
      match rstrip s' with
      | [] => if isspace c then [] else [c]
      | r => c :: r
      end
  end.

(** [str.strip()] *)
Definition strip (s : str) : str := rstrip (lstrip s).

Definition is_ascii_upper (c : char) : bool := (65 <=? c) && (c <=? 90).
Definition is_ascii_lower (c : char) : bool := (97 <=? c) && (c <=? 122).

(** Latin-1 capitals: U+00C0..U+00DE without the multiplication sign. *)
Definition is_latin1_upper (c : char) : bool :=
  (192 <=? c) && (c <=? 222) && negb (c =? 215).

(** Full lower-case mapping of one code point, as [str.lower] applies it.
    The table is exact for ASCII and Latin-1, for U+0130 (capital I with
    dot, which lowers to [i] followed by U+0307) and for U+212A (the
    Kelvin sign, the only code point above U+007F that lowers to ASCII
    text).  Other code points are left unchanged: none of them lowers to
    a string of ASCII characters, and the program only ever compares a
    lowered string with an ASCII one. *)
Definition lower_char (c : char) : str :=
  if is_ascii_upper c then [c + 32]
  else if is_latin1_upper c then [c + 32]
  else if c =? 304 then [105; 775]
  else if c =? 8490 then [107]
  else [c].

(** [str.lower()] *)
Definition lower (s : str) : str := flat_map lower_char s.

(** Title-case mapping of one code point, for the code points a matched
    label can contain (see [ci_char]): ASCII letters, U+0131 (dotless i,
    whose title case is [I]), U+017F (long s, whose title case is [S])
    and U+0130 (its own title case). *)
Definition title_char (c : char) : str :=
  if is_ascii_lower c then [c - 32]
  else if c =? 305 then [73]
  else if c =? 383 then [83]
  else [c].

(** Cased code points, over the same range. *)
Definition iscased (c : char) : bool :=
  is_ascii_upper c || is_ascii_lower c
  || (c =? 304) || (c =? 305) || (c =? 383).

(** [str.title()]: a cased character that follows an uncased one (or
    starts the string) is title-cased, every other one is lowered. *)
Fixpoint title_from (previous_is_cased : bool) (s : str) : str :=
  match s with
  | [] => []
  | c :: s' =>
      (if previous_is_cased then lower_char c else title_char c)
        ++ title_from (iscased c) s'
  end.

Definition title (s : str) : str := title_from false s.

(* ---- dict ---- *)

Definition dict (V : Type) := list (str * V).

Section Dict.
Variable V : Type.

Definition dict_keys (d : dict V) : list str := map fst d.

Fixpoint dict_get (d : dict V) (k : str) : option V :=
  match d with
  | [] => None
  | (k', v) :: d' => if str_eq_dec k' k then Some v else dict_get d' k
  end.

Definition dict_mem (k : str) (d : dict V) : bool :=
  match dict_get d k with Some _ => true | None => false end.

(** [d[k] = v] *)
Fixpoint dict_set (d : dict V) (k : str) (v : V) : dict V :=
  match d with
  | [] => [(k, v)]
  | (k', v') :: d' =>
      if str_eq_dec k' k then (k', v) :: d' else (k', v') :: dict_set d' k v
  end.

(** [d.update(e)] *)
Definition dict_update (d e : dict V) : dict V :=
  fold_left (fun acc kv => dict_set acc (fst kv) (snd kv)) e d.

(** what is left of [d] after [d.pop(k)] *)
Fixpoint dict_remove (d : dict V) (k : str) : dict V :=
  match d with
  | [] => []
  | (k', v) :: d' =>
      if str_eq_dec k' k then d' else (k', v) :: dict_remove d' k
  end.
End Dict.

(* ---- exceptions ---- *)

Inductive result (A : Type) : Type :=
| Ok (a : A)
| Raise (message : str).
Arguments Ok {A} a.
Arguments Raise {A} message.

(* ---- bytes.decode("utf-8", errors=...) ---- *)

Inductive utf8_item : Type :=
| Decoded (c : char)
| Undecodable (width : nat).

Definition is_cont (b : byte) : bool :=
  let n := Byte.to_N b in (128 <=? n) && (n <=? 191).

(** The second byte of a three-byte sequence: E0 needs A0..BF (no
    overlong form), ED needs 80..9F (no surrogate). *)
Definition second_of_3 (b0 b1 : byte) : bool :=
  let n0 := Byte.to_N b0 in
  let n1 := Byte.to_N b1 in
  is_cont b1
  && negb ((n0 =? 224) && (n1 <? 160))
  && negb ((n0 =? 237) && (160 <=? n1)).

(** The second byte of a four-byte sequence: F0 needs 90..BF, F4 needs
    80..8F (nothing above U+10FFFF). *)
Definition second_of_4 (b0 b1 : byte) : bool :=
  let n0 := Byte.to_N b0 in
  let n1 := Byte.to_N b1 in
  is_cont b1
  && negb ((n0 =? 240) && (n1 <? 144))
  && negb ((n0 =? 244) && (144 <=? n1)).

Definition low6 (b : byte) : N := Byte.to_N b - 128.

(** The decoder cuts its input into decoded code points and undecodable
    ranges; an undecodable range is the longest prefix of a sequence that
    is still well formed (one byte for a bad start byte). *)
Fixpoint utf8_items (bs : bytes) : list utf8_item :=
  match bs with
  | [] => []
  | b0 :: r0 =>
      let n0 := Byte.to_N b0 in
      if n0 <? 128 then Decoded n0 :: utf8_items r0
      else if n0 <? 194 then Undecodable 1 :: utf8_items r0
      else if n0 <? 224 then
        match r0 with
        | [] => [Undecodable 1]
        | b1 :: r1 =>
            if is_cont b1
            then Decoded ((n0 - 192) * 64 + low6 b1) :: utf8_items r1
            else Undecodable 1 :: utf8_items r0
        end
      else if n0 <? 240 then
        match r0 with
        | [] => [Undecodable 1]
        | b1 :: r1 =>
            if second_of_3 b0 b1 then
              match r1 with
              | [] => [Undecodable 2]
              | b2 :: r2 =>
                  if is_cont b2
                  then Decoded ((n0 - 224) * 4096 + low6 b1 * 64 + low6 b2)
                         :: utf8_items r2
                  else Undecodable 2 :: utf8_items r1
              end
            else Undecodable 1 :: utf8_items r0
        end
      else if n0 <? 245 then
        match r0 with
        | [] => [Undecodable 1]
        | b1 :: r1 =>
            if second_of_4 b0 b1 then
              match r1 with
              | [] => [Undecodable 2]
              | b2 :: r2 =>
                  if is_cont b2 then
                    match r2 with
                    | [] => [Undecodable 3]
                    | b3 :: r3 =>
                        if is_cont b3
                        then Decoded ((n0 - 240) * 262144 + low6 b1 * 4096
                                      + low6 b2 * 64 + low6 b3)
                               :: utf8_items r3
                        else Undecodable 3 :: utf8_items r2
                    end
                  else Undecodable 2 :: utf8_items r1
              end
            else Undecodable 1 :: utf8_items r0
        end
      else Undecodable 1 :: utf8_items r0
  end.

(** The [errors] argument of [bytes.decode]. *)
Inductive error_handler : Type := Strict | Ignore | Replace.

(** U+FFFD, the replacement character. *)
Definition REPLACEMENT : char := 65533.

Fixpoint handle_items (h : error_handler) (items : list utf8_item)
  : result str :=
  match items with
  | [] => Ok []
  | Decoded c :: rest =>
      match handle_items h rest with
      | Ok s => Ok (c :: s)
      | Raise e => Raise e
      end
  | Undecodable _ :: rest =>
      match h with
      | Strict => Raise (u "UnicodeDecodeError")
      | Ignore => handle_items h rest
      | Replace =>
          match handle_items h rest with
          | Ok s => Ok (REPLACEMENT :: s)
          | Raise e => Raise e
          end
      end
  end.

(** [bs.decode("utf-8", errors=h)] *)
Definition decode_utf8 (h : error_handler) (bs : bytes) : result str :=
  handle_items h (utf8_items bs).

End Py.

Import Py.

(* ------------------------------------------------------------------ *)
(** * The regular expressions of the program

    A pattern is run the way Python's backtracking matcher runs it: each
    construct takes the text that is left and a continuation for the rest
    of the pattern, and a construct with a choice tries its options in
    the matcher's order until the continuation succeeds. *)

Module Re.

Local Open Scope N_scope.

(** Simple lower-case mapping, as the matcher applies it to a character
    under [re.IGNORECASE]; exact for ASCII, Latin-1, U+0130 and U+212A,
    the only code points above U+007F that it sends to ASCII letters. *)
Definition sre_lower (c : char) : char :=
  if is_ascii_upper c then c + 32
  else if is_latin1_upper c then c + 32
  else if c =? 304 then 105
  else if c =? 8490 then 107
  else c.

(** Extra case equivalences of the matcher, for the letters i, s, k. *)
Definition sre_fixes (lo : char) : list char :=
  if lo =? 105 then [305]
  else if lo =? 305 then [105]
  else if lo =? 115 then [383]
  else if lo =? 383 then [115]
  else if lo =? 107 then [8490]
  else [].

(** One literal pattern character [p] against one text character [x]
    under [re.IGNORECASE].  For an uncased [p] (space, colon) this is
    plain equality. *)
Definition ci_char (p x : char) : bool :=
  let lo := sre_lower p in
  let x' := sre_lower x in
  (x' =? lo) || existsb (N.eqb x') (sre_fixes lo).

Local Close Scope N_scope.

(** A literal string; the result is the text after it. *)
Fixpoint lit (p s : str) : option str :=
  match p, s with
  | [], _ => Some s
  | a :: p', x :: s' => if ci_char a x then lit p' s' else None
  | _ :: _, [] => None
  end.

Section Combinators.
Variable A : Type.

(** [(?:a1|a2|...)] followed by [k]; [k] gets the text the chosen
    alternative matched and the text after it. *)
Fixpoint alt (alts : list str) (s : str) (k : str -> str -> option A)
  : option A :=
  match alts with
  | [] => None
  | a :: alts' =>
      match lit a s with
      | Some r =>
          match k (firstn (length a) s) r with
          | Some x => Some x
          | None => alt alts' s k
          end
      | None => alt alts' s k
      end
  end.

(** [\s*] (greedy) followed by [k]. *)
Fixpoint ws_star (s : str) (k : str -> option A) : option A :=
  match s with
  | c :: s' =>
      if isspace c
      then match ws_star s' k with
           | Some x => Some x
           | None => k s
           end
      else k s
  | [] => k []
  end.

(** [.*?] (lazy, [re.DOTALL]) followed by [k]; [k] gets the text
    consumed so far and the text after it. *)
Fixpoint any_lazy (consumed s : str) (k : str -> str -> option A)
  : option A :=
  match k consumed s with
  | Some x => Some x
  | None =>
      match s with
      | [] => None
      | c :: s' => any_lazy (consumed ++ [c]) s' k
      end
  end.
End Combinators.

(** [$] without [re.MULTILINE]: the end of the text, or just before a
    line feed that ends the text. *)
Definition at_end (s : str) : bool :=
  match s with
  | [] => true
  | [c] => N.eqb c 10
  | _ => false
  end.

End Re.

Import Re.

(* ------------------------------------------------------------------ *)
(** * The text parser *)

Definition LABELS : list str := Eval cbv in map u
  [ "Prompt:"; "Negative prompt:"; "Steps:"; "Sampler:"; "CFG scale:";
    "Seed:"; "Size:"; "Model hash:"; "Model:"; "Version:" ]%string.

(** The alternatives of the [label] group of [RGX_LABEL]. *)
Definition label_alts : list str := Eval cbv in map u
  [ "Prompt"; "Negative prompt"; "Steps"; "Sampler"; "CFG scale";
    "Seed"; "Size"; "Model hash"; "Model"; "Version" ]%string.

(** The alternatives of the lookahead of [RGX_LABEL], without its [$]. *)
Definition stop_alts : list str := Eval cbv in map u
  [ "Prompt:"; "Negative prompt:"; "Steps:"; "Sampler:"; "CFG scale:";
    "Seed:"; "Size:"; "Model hash:"; "Model"; "Version" ]%string.

Definition colon : str := Eval cbv in u ":".

(** [(?:Prompt:|...|Model|Version|$)] *)
Definition stop_here (s : str) : option unit :=
  match alt stop_alts s (fun _ _ => Some tt) with
  | Some x => Some x
  | None => if at_end s then Some tt else None
  end.

(** [(?=\s*(?:Prompt:|...|Model|Version|$))] *)
Definition lookahead (s : str) : bool :=
  match ws_star s stop_here with
  | Some _ => true
  | None => false
  end.

(** [RGX_LABEL] tried at the start of [s]: the [label] group, the
    [value] group and the text after the match. *)
Definition RGX_LABEL (s : str) : option (str * str * str) :=
  alt label_alts s (fun label r1 =>
    match lit colon r1 with
    | None => None
    | Some r2 =>
        ws_star r2 (fun r3 =>
          any_lazy [] r3 (fun value r4 =>
            if lookahead r4 then Some (label, value, r4) else None))
    end).

(** A match object: [m.start()], [m.group("label")], [m.group("value")]
    and [m.end()]. *)
Record Match : Type := mkMatch {
  m_start : nat;
  m_label : str;
  m_value : str;
  m_end : nat
}.

(** [RGX_LABEL.finditer]: the text is scanned from left to right; after
    a match the scan resumes where the match ended, so the [skip]
    positions inside it are passed over.  [pos] is the index of the head
    of [s] in the whole text. *)
Fixpoint finditer_from (pos skip : nat) (s : str) : list Match :=
  match s with
  | [] => []
  | _ :: s' =>
      match skip with
      | S n => finditer_from (S pos) n s'
      | O =>
          match RGX_LABEL s with
          | Some (label, value, rest) =>
              let width := length s - length rest in
              mkMatch pos label value (pos + width)
                :: finditer_from (S pos) (width - 1) s'
          | None => finditer_from (S pos) 0 s'
          end
      end
  end.

Definition finditer (text : str) : list Match := finditer_from 0 0 text.

Definition cfg_scale : str := Eval cbv in u "cfg scale".
Definition negative_prompt : str := Eval cbv in u "negative prompt".
Definition model_hash : str := Eval cbv in u "model hash".
Definition CFG_Scale : str := Eval cbv in u "CFG Scale".
Definition Negative_Prompt : str := Eval cbv in u "Negative Prompt".
Definition Model_hash : str := Eval cbv in u "Model hash".
Definition Prompt : str := Eval cbv in u "Prompt".
Definition RawSnippet : str := Eval cbv in u "RawSnippet".

(** The key a match is stored under (the [if] chain of
    [parse_labeled]). *)
Definition stored_key (label_raw : str) : str :=
  let key_lower := lower label_raw in
  if str_eqb key_lower cfg_scale then CFG_Scale
  else if str_eqb key_lower negative_prompt then Negative_Prompt
  else if str_eqb key_lower model_hash then Model_hash
  else title label_raw.

(** One turn of the loop of [parse_labeled]. *)
Definition store_match (results : dict str) (m : Match) : dict str :=
  let label_raw := strip (m_label m) in
  let value_raw := strip (m_value m) in
  dict_set results (stored_key label_raw) value_raw.

Definition parse_labeled (text : str) : dict str :=
  fold_left store_match (finditer text) [].

Definition space : str := Eval cbv in u " ".

(** [pattern_next_label] tried at the start of [s]:
    [(?=(Negative\ prompt:|Steps:|...|Version:) )]. *)
Definition next_label_here (s : str) : bool :=
  match alt (tl LABELS) s (fun _ r => lit space r) with
  | Some _ => true
  | None => false
  end.

(** [re.search(pattern_next_label, raw_text, flags=re.IGNORECASE)]:
    [match.start()] of the leftmost match, if any. *)
Fixpoint search_next_label (s : str) : option nat :=
  if next_label_here s then Some 0
  else match s with
       | [] => None
       | _ :: s' => option_map S (search_next_label s')
       end.

Definition parse_no_prompt_label (raw_text : str) : dict str :=
  match search_next_label raw_text with
  | None => [(Prompt, strip raw_text)]
  | Some end_index =>
      let prompt_text := strip (firstn end_index raw_text) in
      let rest_text := strip (skipn end_index raw_text) in
      let d := [] in
      let d := match prompt_text with
               | [] => d
               | _ :: _ => dict_set d Prompt prompt_text
               end in
      let labeled := parse_labeled rest_text in
      dict_update d labeled
  end.

Definition parse_sd_text (raw_text : str) : dict str :=
  let data := parse_labeled raw_text in
  let data :=
    if negb (existsb (str_eqb Prompt) (map lower (dict_keys data)))
    then parse_no_prompt_label raw_text
    else data in
  dict_set data RawSnippet raw_text.

(* ------------------------------------------------------------------ *)
(** * The metadata locator *)

(** A value held by [img.info], [img.text] or an EXIF table: text, bytes,
    or anything else (a tuple, a number), of which only the truth value
    matters here. *)
Inductive PyVal : Type :=
| VStr (s : str)
| VBytes (b : bytes)
| VOther (truth : bool).

Definition truthy (v : PyVal) : bool :=
  match v with
  | VStr [] => false
  | VStr (_ :: _) => true
  | VBytes [] => false
  | VBytes (_ :: _) => true
  | VOther b => b
  end.

Inductive ImageClass : Type :=
| PngImageFile
| WebPImageFile
| OtherImageFile.

(** What the program reads of an opened image: [img.format], the class
    [isinstance] tests, [img.info], and [img.text] when the object has
    that attribute. *)
Record Image : Type := mkImage {
  format : str;
  class : ImageClass;
  info : dict PyVal;
  text : option (dict PyVal)
}.

(** [piexif.load] returns a table per IFD name, keyed by tag number. *)
Definition ExifDict := dict (list (N * PyVal)).

(** [piexif.ExifIFD.UserComment] *)
Definition UserComment_tag : N := 37510.

Record Library : Type := mkLibrary {
  Image_open : bytes -> result Image;
  piexif_load : PyVal -> result ExifDict;
  UserComment_load : PyVal -> result str
}.

Definition PNG : str := Eval cbv in u "PNG".
Definition WEBP : str := Eval cbv in u "WEBP".
Definition key_exif : str := Eval cbv in u "exif".
Definition key_Exif : str := Eval cbv in u "Exif".
Definition key_parameters : str := Eval cbv in u "parameters".
Definition key_format : str := Eval cbv in u "format".
Definition key_foundIn : str := Eval cbv in u "foundIn".
Definition key_error : str := Eval cbv in u "error".
Definition Pillow_info_text : str := Eval cbv in u "Pillow info/text".
Definition Exif_UserComment : str := Eval cbv in u "Exif UserComment".
Definition Fallback : str := Eval cbv in u "Fallback".
Definition TypeError : str := Eval cbv in u "TypeError".
Definition AttributeError : str := Eval cbv in u "AttributeError".

Definition fallback_search (bdata : bytes) : result str :=
  decode_utf8 Ignore bdata.

Fixpoint tag_get (ifd : list (N * PyVal)) (tag : N) : option PyVal :=
  match ifd with
  | [] => None
  | (t, v) :: ifd' => if N.eqb t tag then Some v else tag_get ifd' tag
  end.

(** [uc.decode("utf-8", errors="ignore")]: only bytes have the method. *)
Definition decode_ignore (uc : PyVal) : result str :=
  match uc with
  | VBytes b => decode_utf8 Ignore b
  | _ => Raise AttributeError
  end.

(** The body of the outer [try] of [extract_exif_usercomment]:
    [Ok (Some s)] when it returns [s], [Ok None] when it falls through. *)
Definition exif_try_body (L : Library) (exif : PyVal)
  : result (option str) :=
  match piexif_load L exif with
  | Raise e => Raise e
  | Ok exif_dict =>
      let ifd := match dict_get exif_dict key_Exif with
                 | Some t => t
                 | None => []
                 end in
      match tag_get ifd UserComment_tag with
      | None => Ok None
      | Some uc =>
          if truthy uc then
            match UserComment_load L uc with
            | Ok s => Ok (Some s)
            | Raise _ =>
                match decode_ignore uc with
                | Ok s => Ok (Some s)
                | Raise e => Raise e
                end
            end
          else Ok None
      end
  end.

Definition extract_exif_usercomment (L : Library) (img : Image) : str :=
  match dict_get (info img) key_exif with
  | Some exif =>
      match exif_try_body L exif with
      | Ok (Some s) => s
      | Ok None => []
      | Raise _ => []
      end
  | None => []
  end.

(** Lines 93-99 of [extract_sd_meta]: the text properties it collects. *)
Definition collect_details (img : Image) : result (dict PyVal) :=
  let details := [] in
  let details :=
    if str_eqb (format img) PNG || str_eqb (format img) WEBP
    then dict_update details (info img) else details in
  match class img, text img with
  | PngImageFile, Some t => Ok (dict_update details t)
  | PngImageFile, None => Raise AttributeError
  | WebPImageFile, Some t => Ok (dict_update details t)
  | WebPImageFile, None => Ok details
  | OtherImageFile, _ => Ok details
  end.

(** [parse_sd_text] called on a value that may not be a [str]: the
    regular expression refuses anything else. *)
Definition call_parse_sd_text (v : PyVal) : result (dict str) :=
  match v with
  | VStr s => Ok (parse_sd_text s)
  | _ => Raise TypeError
  end.

(** [except Exception as e: meta_info["error"] = str(e)] around a step
    that yields the parsed fields. *)
Definition update_or_error (meta_info : dict str)
  (parsed : result (dict str)) : dict str :=
  match parsed with
  | Ok p => dict_update meta_info p
  | Raise e => dict_set meta_info key_error e
  end.

Definition extract_sd_meta (L : Library) (bdata : bytes) : dict str :=
  let meta_info := [] in
  match Image_open L bdata with
  | Raise e => dict_set meta_info key_error e
  | Ok img =>
      let meta_info := dict_set meta_info key_format (format img) in
      match collect_details img with
      | Raise e => dict_set meta_info key_error e
      | Ok details =>
          let pillow_str :=
            match dict_get details key_parameters with
            | Some v => v
            | None => VStr []
            end in
          let exif_str :=
            if str_eqb (format img) WEBP
            then extract_exif_usercomment L img else [] in
          if truthy pillow_str then
            let meta_info := dict_set meta_info key_foundIn Pillow_info_text in
            update_or_error meta_info (call_parse_sd_text pillow_str)
          else
            match exif_str with
            | _ :: _ =>
                let meta_info :=
                  dict_set meta_info key_foundIn Exif_UserComment in
                update_or_error meta_info (Ok (parse_sd_text exif_str))
            | [] =>
                let meta_info := dict_set meta_info key_foundIn Fallback in
                match fallback_search bdata with
                | Ok fb => update_or_error meta_info (Ok (parse_sd_text fb))
                | Raise e => dict_set meta_info key_error e
                end
            end
      end
  end.

(* ------------------------------------------------------------------ *)
(** * The presenter (lines 171-180 of [main]) *)

Definition order : list str := Eval cbv in map u
  [ "Prompt"; "Negative Prompt"; "Steps"; "Sampler"; "CFG Scale";
    "Seed"; "Size"; "Model hash"; "Model"; "Version" ]%string.

(** The inner loop for one [k]: the first key [mk] of [meta], in
    insertion order, with [mk.lower() == k.lower()] is popped and its
    value stored under [k]. *)
Definition take_label (state : dict str * dict str) (k : str)
  : dict str * dict str :=
  let (display_dict, meta) := state in
  match find (fun kv => str_eqb (lower (fst kv)) (lower k)) meta with
  | Some (mk, v) => (dict_set display_dict k v, dict_remove meta mk)
  | None => (display_dict, meta)
  end.

Definition display_dict (meta : dict str) : dict str :=
  let (display_dict, meta) := fold_left take_label order ([], meta) in
  dict_update display_dict meta.

(* ------------------------------------------------------------------ *)
(** * Statements in the words of the specification *)

(** A position where a value stops, as the specification words it: a
    recognized label followed by a colon, the bare token Model or
    Version, or the end of the text. *)
Definition Model : str := Eval cbv in u "Model".
Definition Version : str := Eval cbv in u "Version".

Definition starts_with (p s : str) : bool :=
  match lit p s with Some _ => true | None => false end.

Definition terminator_here (s : str) : bool :=
  existsb (fun l => starts_with l s) LABELS
  || starts_with Model s || starts_with Version s
  || match s with [] => true | _ :: _ => false end.

(** Distance from the start of [s] to the next terminator. *)
Fixpoint next_terminator (s : str) : nat :=
  if terminator_here s then 0
  else match s with
       | [] => 0
       | _ :: s' => S (next_terminator s')
       end.

(** A key the presenter does not recognize: it matches no canonical
    label, case-insensitively. *)
Definition unrecognized (k : str) : Prop :=
  forall c, In c order -> lower k <> lower c.

(** [k] is the label [c], whatever the case. *)
Definition same_label (c k : str) : bool := str_eqb (lower k) (lower c).

(** The value [meta] holds for the label [c], whatever the case of its
    key. *)
Definition lookup_ci (meta : dict str) (c : str) : option str :=
  match find (fun kv => str_eqb (lower (fst kv)) (lower c)) meta with
  | Some (_, v) => Some v
  | None => None
  end.

(** The entries of [meta] for the canonical labels, under their
    canonical spelling and in canonical order. *)
Definition canonical_part (meta : dict str) : dict str :=
  flat_map (fun c => match lookup_ci meta c with
                     | Some v => [(c, v)]
                     | None => []
                     end) order.

(** A key that starts with an ASCII capital; the keys [format],
    [foundIn] and [error] of the locator do not. *)
Definition capitalised (k : str) : Prop :=
  exists y r, k = y :: r /\ is_ascii_upper y = true.

(** The code points the decoder produced, the undecodable ranges left
    out. *)
Definition decoded_only (items : list utf8_item) : str :=
  flat_map (fun it => match it with
                      | Decoded c => [c]
                      | Undecodable _ => []
                      end) items.

(** The value of [pillow_str] for the collected properties. *)
Definition pillow_str_of (details : dict PyVal) : PyVal :=
  match dict_get details key_parameters with
  | Some v => v
  | None => VStr []
  end.

(** The [Exif] table of a loaded EXIF block. *)
Definition exif_ifd (exif_dict : ExifDict) : list (N * PyVal) :=
  match dict_get exif_dict key_Exif with
  | Some t => t
  | None => []
  end.

(** Keys in order of first occurrence. *)
Fixpoint first_occurrences (ks : list str) : list str :=
  match ks with
  | [] => []
  | k :: ks' =>
      k :: filter (fun k' => negb (str_eqb k k')) (first_occurrences ks')
  end.

(** What [parse_labeled] stores for each match, in match order. *)
Definition stored_items (text : str) : list (str * str) :=
  map (fun m => (stored_key (strip (m_label m)), strip (m_value m)))
      (finditer text).

(* ------------------------------------------------------------------ *)
(** * Sample inputs *)

Module Samples.

Definition cat_text : str :=
  u "Prompt: a cat" ++ nl ++ u "Negative prompt: blurry" ++ nl
    ++ u "Steps: 20".

(** The eight bytes of the PNG signature. *)
Definition png_bytes : bytes := [x89; x50; x4e; x47; x0d; x0a; x1a; x0a].

Definition png_image : Image :=
  mkImage PNG PngImageFile
    [(key_parameters, VStr cat_text)]
    (Some [(key_parameters, VStr cat_text)]).

Definition no_exif : str := u "no exif".

(** A decoder that opens every input as [png_image]. *)
Definition png_library : Library :=
  mkLibrary (fun _ => Ok png_image)
            (fun _ => Raise no_exif)
            (fun _ => Raise no_exif).

(** A field map out of canonical order, with a key in capitals, a key
    in lower case and a key that is no label. *)
Definition shuffled_fields : dict str :=
  [(u "Foo", u "1"); (u "seed", u "2"); (u "PROMPT", u "3")].

(** The bytes [A], an invalid [FF], [B]. *)
Definition garbled : bytes := [x41; xff; x42].

Definition bare_image : Image := mkImage PNG PngImageFile [] (Some []).

(** A decoder that opens every input as an image without metadata. *)
Definition bare_library : Library :=
  mkLibrary (fun _ => Ok bare_image)
            (fun _ => Raise no_exif)
            (fun _ => Raise no_exif).

(** The start of an EXIF block; the sample libraries below say what the
    block loads to. *)
Definition exif_blob : bytes := [x45; x78; x69; x66; x00; x00].

(** The bytes of [hello]: too short for the eight-byte encoding prefix
    of a user comment. *)
Definition hello_bytes : bytes := [x68; x65; x6c; x6c; x6f].

Definition webp_image : Image :=
  mkImage WEBP WebPImageFile [(key_exif, VBytes exif_blob)] None.

Definition ValueError : str := u "ValueError".

(** A WEBP image whose EXIF block loads, with a UserComment entry that
    the user-comment decoder rejects. *)
Definition bad_comment_library : Library :=
  mkLibrary (fun _ => Ok webp_image)
            (fun _ => Ok [(key_Exif, [(UserComment_tag, VBytes hello_bytes)])])
            (fun _ => Raise ValueError).

Definition webp_both_image : Image :=
  mkImage WEBP WebPImageFile
    [(key_parameters, VStr (u "Steps: 20")); (key_exif, VBytes exif_blob)]
    None.

(** A WEBP image with a [parameters] property and a readable
    UserComment. *)
Definition both_library : Library :=
  mkLibrary (fun _ => Ok webp_both_image)
            (fun _ => Ok [(key_Exif, [(UserComment_tag, VBytes hello_bytes)])])
            (fun _ => Ok (u "Seed: 5")).



(** An image of another format that carries a [parameters] entry in
    its info. *)
Definition jpeg_image : Image :=
  mkImage (u "JPEG") OtherImageFile
    [(key_parameters, VStr (u "Steps: 20"))] None.

Definition jpeg_library : Library :=
  mkLibrary (fun _ => Ok jpeg_image)
            (fun _ => Raise no_exif)
            (fun _ => Raise no_exif).

(** The two bytes that start a JPEG file. *)
Definition jpeg_bytes : bytes := [xff; xd8].

(** The eight bytes that start a WEBP file of length zero. *)
Definition webp_bytes : bytes := [x52; x49; x46; x46; x00; x00; x00; x00].

End Samples.

(* ------------------------------------------------------------------ *)
(** * The viewer (lines 149-197 of [main])

    What [main] does with the bytes of the chosen file; each Streamlit
    call is one entry of the list of widgets it produces. *)

Inductive Widget : Type :=
| st_image (caption : str)
| st_error (body : str)
| st_warning (body : str)
| st_markdown (body : str)
| st_table (rows : list (str * str))
| st_info (body : str)
| st_text_area (value : str).

Definition fallback_notice : str := Eval cbv in u "Metadata from fallback scan.".
Definition no_metadata_notice : str := Eval cbv in u "No SD metadata found.".
Definition found_in_prefix : str := Eval cbv in u "**Data Found In:** ".
Definition no_parameters_notice : str :=
  Eval cbv in u "No recognized parameters.".
Definition cannot_open_prefix : str := Eval cbv in u "Cannot open image: ".

(** Lines 167-169: [meta] after the three [pop] calls. *)
Definition displayed_fields (meta : dict str) : dict str :=
  dict_remove (dict_remove (dict_remove meta RawSnippet) key_foundIn)
              key_format.

(** Lines 157-195: the second column, given the record [meta]. *)
Definition show_meta (meta : dict str) : list Widget :=
  match dict_get meta key_error with
  | Some e => [st_error e]
  | None =>
      let notice :=
        match dict_get meta key_foundIn with
        | Some found =>
            if str_eqb found Fallback then st_warning fallback_notice
            else st_markdown (found_in_prefix ++ found)
        | None => st_warning no_metadata_notice
        end in
      let raw_txt := dict_get meta RawSnippet in
      let meta := displayed_fields meta in
      let fields :=
        match meta with
        | _ :: _ => st_table (display_dict meta)
        | [] => st_info no_parameters_notice
        end in
      let raw :=
        match raw_txt with
        | Some ((_ :: _) as t) => [st_text_area t]
        | _ => []
        end in
      notice :: fields :: raw
  end.

(** The [try] block of lines 150-197 runs its Streamlit calls in order;
    when one raises, the calls still to come are not made and the
    handler of line 196 reports the exception.  [fails w] is the message
    of the exception the call [w] raises, if it raises: for [st_image]
    this covers [st.columns] and the decoding of the image that
    [st.image] triggers, for [st_table] the building of the data frame,
    for [st_text_area] the [st.expander] around it. *)
Fixpoint run_calls (fails : Widget -> option str) (calls : list Widget)
  : list Widget :=
  match calls with
  | [] => []
  | w :: rest =>
      match fails w with
      | Some e => [st_error (cannot_open_prefix ++ e)]
      | None => w :: run_calls fails rest
      end
  end.

(** Lines 149-197: the chosen file is opened for display, then its
    metadata is extracted and shown; any exception on the way ends in
    the report of line 197. *)
Definition view_file (L : Library) (fails : Widget -> option str)
  (selected_file_name : str) (bdata : bytes) : list Widget :=
  match Image_open L bdata with
  | Raise e => [st_error (cannot_open_prefix ++ e)]
  | Ok img =>
      run_calls fails
        (st_image selected_file_name :: show_meta (extract_sd_meta L bdata))
  end.


(* ------------------------------------------------------------------ *)
(** * The calls the locator makes

    The calls to the image and EXIF libraries, in the order
    [extract_sd_meta] makes them. *)




(** Text made of ASCII characters only. *)
Definition ascii_text (s : str) : Prop := Forall (fun c => (c < 128)%N) s.

(** Bytes below 0x80 only. *)
Definition ascii_bytes (b : bytes) : Prop :=
  Forall (fun x => (Byte.to_N x < 128)%N) b.

(** The row the presenter makes for the label [c], if [meta] has one. *)
Definition label_entry (meta : dict str) (c : str) : dict str :=
  match lookup_ci meta c with
  | Some v => [(c, v)]
  | None => []
  end.

(** A match ends where the next one starts, or before. *)
Definition precedes (m1 m2 : Match) : Prop := m_end m1 <= m_start m2.

(* ------------------------------------------------------------------ *)
(** * Facts about the built-ins *)

Section DictFacts.
Variable V : Type.
Implicit Types (d e : dict V) (k : str) (v : V).

Lemma dict_get_set_eq d k v : dict_get (dict_set d k v) k = Some v.
Proof.
  induction d as [|[k' v'] d IH]; simpl.
  - destruct (str_eq_dec k k); congruence.
  - destruct (str_eq_dec k' k) as [E|E]; simpl.
    + destruct (str_eq_dec k' k); congruence.
    + destruct (str_eq_dec k' k); [congruence|apply IH].
Qed.

Lemma dict_get_set_neq d k k0 v :
  k <> k0 -> dict_get (dict_set d k v) k0 = dict_get d k0.
Proof.
  intros N. induction d as [|[k' v'] d IH]; simpl.
  - destruct (str_eq_dec k k0); congruence.
  - destruct (str_eq_dec k' k) as [E|E]; simpl.
    + destruct (str_eq_dec k' k0); congruence.
    + destruct (str_eq_dec k' k0); [reflexivity|apply IH].
Qed.

Lemma dict_get_None d k : dict_get d k = None <-> ~ In k (dict_keys d).
Proof.
  induction d as [|[k' v'] d IH]; simpl.
  - tauto.
  - destruct (str_eq_dec k' k) as [E|E].
    + split; [discriminate|intros H; exfalso; apply H; auto].
    + rewrite IH. tauto.
Qed.

Lemma dict_get_In d k v : dict_get d k = Some v -> In (k, v) d.
Proof.
  induction d as [|[k' v'] d IH]; simpl; [discriminate|].
  destruct (str_eq_dec k' k) as [E|E].
  - intros [= ->]. subst. auto.
  - auto.
Qed.

Lemma dict_get_Some_key d k v : dict_get d k = Some v -> In k (dict_keys d).
Proof.
  intros H. apply dict_get_In in H.
  unfold dict_keys. change k with (fst (k, v)). now apply in_map.
Qed.

Lemma dict_set_absent d k v :
  ~ In k (dict_keys d) -> dict_set d k v = d ++ [(k, v)].
Proof.
  induction d as [|[k' v'] d IH]; simpl; intros H; [reflexivity|].
  destruct (str_eq_dec k' k) as [E|E]; [tauto|].
  f_equal. apply IH. tauto.
Qed.

Lemma dict_keys_set_present d k v :
  In k (dict_keys d) -> dict_keys (dict_set d k v) = dict_keys d.
Proof.
  induction d as [|[k' v'] d IH]; simpl; intros H; [tauto|].
  destruct (str_eq_dec k' k) as [E|E]; simpl; [reflexivity|].
  f_equal. apply IH. tauto.
Qed.

Lemma dict_keys_set d k v :
  dict_keys (dict_set d k v)
  = if in_dec str_eq_dec k (dict_keys d) then dict_keys d
    else dict_keys d ++ [k].
Proof.
  destruct (in_dec str_eq_dec k (dict_keys d)) as [H|H].
  - now apply dict_keys_set_present.
  - rewrite dict_set_absent by assumption.
    unfold dict_keys. now rewrite map_app.
Qed.

Lemma dict_set_NoDup d k v :
  NoDup (dict_keys d) -> NoDup (dict_keys (dict_set d k v)).
Proof.
  intros H. rewrite dict_keys_set.
  destruct (in_dec str_eq_dec k (dict_keys d)) as [I|I]; [assumption|].
  apply NoDup_app; [assumption|repeat constructor; simpl; tauto|].
  intros x Hx [<-|[]]. contradiction.
Qed.


Lemma dict_update_NoDup e : forall d,
  NoDup (dict_keys d) -> NoDup (dict_keys (dict_update d e)).
Proof.
  induction e as [|[k v] e IH]; simpl; intros d H; [assumption|].
  apply IH. now apply dict_set_NoDup.
Qed.

(** Updating with entries under fresh, distinct keys appends them. *)
Lemma dict_update_fresh e : forall d,
  NoDup (dict_keys e) ->
  (forall k, In k (dict_keys e) -> ~ In k (dict_keys d)) ->
  dict_update d e = d ++ e.
Proof.
  induction e as [|[k v] e IH]; simpl; intros d ND F.
  - now rewrite app_nil_r.
  - inversion ND as [|? ? Hk ND']; subst.
    unfold dict_update in *. simpl.
    rewrite dict_set_absent by (apply F; auto).
    rewrite IH; [now rewrite <- app_assoc|assumption|].
    intros k0 I0. unfold dict_keys. rewrite map_app, in_app_iff. simpl.
    intros [I|[<-|[]]]; [|contradiction].
    apply (F k0); auto.
Qed.

End DictFacts.

(* ------------------------------------------------------------------ *)
(** * The trigger of the no-prompt heuristic *)

Ltac n_compare :=
  repeat match goal with
    | H : (_ <=? _)%N = true |- _ => apply N.leb_le in H
    | H : (_ <=? _)%N = false |- _ => apply N.leb_gt in H
    | H : (_ <? _)%N = true |- _ => apply N.ltb_lt in H
    | H : (_ <? _)%N = false |- _ => apply N.ltb_ge in H
    | H : (_ =? _)%N = true |- _ => apply N.eqb_eq in H
    | H : (_ =? _)%N = false |- _ => apply N.eqb_neq in H
    | H : (_ && _) = true |- _ => apply andb_true_iff in H; destruct H
    | H : negb _ = true |- _ => apply negb_true_iff in H
    end.

(** No code point lowers to text that contains a capital [P]. *)
Lemma lower_char_no_capital_P c : ~ In 80%N (lower_char c).
Proof.
  unfold lower_char, is_ascii_upper, is_latin1_upper.
  destruct ((65 <=? c)%N && (c <=? 90)%N) eqn:U.
  { n_compare. simpl. intros [E|[]]. lia. }
  destruct ((192 <=? c)%N && (c <=? 222)%N && negb (c =? 215)%N) eqn:L.
  { n_compare. simpl. intros [E|[]]. lia. }
  destruct (c =? 304)%N eqn:E1; [simpl; intros [E|[E|[]]]; discriminate|].
  destruct (c =? 8490)%N eqn:E2; [simpl; intros [E|[]]; discriminate|].
  simpl. intros [E|[]]. subst c. discriminate.
Qed.

Lemma lower_no_capital_P s : ~ In 80%N (lower s).
Proof.
  unfold lower. rewrite in_flat_map. intros [c [_ H]].
  exact (lower_char_no_capital_P _ H).
Qed.

(** The guard of [parse_sd_text] looks for the capitalised word among
    lower-cased keys, so it never finds it. *)
Lemma Prompt_not_among_lowered (ks : list str) :
  existsb (str_eqb Prompt) (map lower ks) = false.
Proof.
  induction ks as [|k ks IH]; simpl; [reflexivity|].
  rewrite IH, orb_false_r. unfold str_eqb.
  destruct (str_eq_dec Prompt (lower k)) as [E|E]; [|reflexivity].
  exfalso. apply (@lower_no_capital_P k). rewrite <- E. simpl. auto.
Qed.

(** [parse_sd_text] therefore always takes the heuristic path. *)
Lemma parse_sd_text_unfold (raw_text : str) :
  parse_sd_text raw_text
  = dict_set (parse_no_prompt_label raw_text) RawSnippet raw_text.
Proof.
  unfold parse_sd_text. now rewrite Prompt_not_among_lowered.
Qed.

Lemma parse_sd_text_RawSnippet (raw_text : str) :
  dict_get (parse_sd_text raw_text) RawSnippet = Some raw_text.
Proof. unfold parse_sd_text. apply dict_get_set_eq. Qed.

(** C3: for every input string the parser's result has the key
    [RawSnippet], and its value is the input string itself, untrimmed and
    unchanged, whichever strategy filled in the other fields. *)
Theorem RawSnippet_is_input (raw_text : str) :
  In RawSnippet (dict_keys (parse_sd_text raw_text))
  /\ dict_get (parse_sd_text raw_text) RawSnippet = Some raw_text.
Proof.
  pose proof (parse_sd_text_RawSnippet raw_text) as G.
  split; [exact (dict_get_Some_key _ _ G)|exact G].
Qed.

(** The examples of the specification that have no [Prompt:] label. *)
Example prompt_recovered_before_first_label :
  dict_remove (parse_sd_text (u "masterpiece, 1girl Steps: 20 Seed: 5"))
              RawSnippet
  = [(Prompt, u "masterpiece, 1girl"); (u "Steps", u "20");
     (u "Seed", u "5")].
Proof. reflexivity. Qed.

Example text_without_labels_is_the_prompt :
  dict_remove (parse_sd_text (u "just some words")) RawSnippet
  = [(Prompt, u "just some words")].
Proof. reflexivity. Qed.

(** A value runs over line ends, and the bare word Model stops it. *)
Example value_spans_lines :
  parse_labeled (u "Prompt: a" ++ nl ++ u "b  Steps: 1")
  = [(Prompt, u "a" ++ nl ++ u "b"); (u "Steps", u "1")].
Proof. reflexivity. Qed.

Example bare_Model_stops_a_value :
  parse_labeled (u "Prompt: a Modelx Steps: 1")
  = [(Prompt, u "a"); (u "Steps", u "1")].
Proof. reflexivity. Qed.

(** C1 (the code departs from it): on the text [Prompt: a cat] the
    labeled extraction finds a key equal to [prompt] without regard to
    case, and yet the parser's result without [RawSnippet] is the
    heuristic's, which differs from the labeled extraction's. *)
Theorem heuristic_runs_despite_prompt_key :
  let raw_text := u "Prompt: a cat" in
  existsb (fun k => str_eqb (lower k) (u "prompt"))
          (dict_keys (parse_labeled raw_text)) = true
  /\ parse_labeled raw_text = [(Prompt, u "a cat")]
  /\ dict_remove (parse_sd_text raw_text) RawSnippet
     = [(Prompt, u "Prompt: a cat")].
Proof. vm_compute. repeat split. Qed.

(** C6 (the code departs from it): for the empty input the result holds
    a [Prompt] entry with an empty value next to [RawSnippet]. *)
Theorem empty_text_gets_empty_Prompt :
  parse_sd_text [] = [(Prompt, []); (RawSnippet, [])].
Proof. reflexivity. Qed.

(** C2 (the code departs from it): for a PNG whose [parameters] property
    is the three-line sample, the source is the embedded info and the
    fields Negative Prompt and Steps are as expected, but Prompt holds
    the whole first line, label included. *)
Theorem png_sample_Prompt_keeps_label :
  let meta := extract_sd_meta Samples.png_library Samples.png_bytes in
  dict_get meta key_foundIn = Some Pillow_info_text
  /\ dict_get meta Negative_Prompt = Some (u "blurry")
  /\ dict_get meta (u "Steps") = Some (u "20")
  /\ dict_get meta Prompt = Some (u "Prompt: a cat")
  /\ dict_get (parse_labeled Samples.cat_text) Prompt = Some (u "a cat").
Proof. vm_compute. repeat split. Qed.

(* ------------------------------------------------------------------ *)
(** * What the combinators match *)

Lemma lit_split p : forall s r,
  lit p s = Some r -> s = firstn (length p) s ++ r.
Proof.
  induction p as [|a p IH]; intros [|x s] r; simpl; try discriminate.
  - now intros [= ->].
  - now intros [= ->].
  - destruct (ci_char a x); [|discriminate].
    intros H. f_equal. now apply IH.
Qed.

Lemma lit_head a p x s r : lit (a :: p) (x :: s) = Some r -> ci_char a x = true.
Proof. simpl. destruct (ci_char a x); [reflexivity|discriminate]. Qed.

(** A literal that matches, matches shortened too. *)
Lemma starts_with_app p q s :
  starts_with (p ++ q) s = true -> starts_with p s = true.
Proof.
  unfold starts_with. revert s.
  induction p as [|a p IH]; intros s; simpl; [reflexivity|].
  destruct s as [|x s]; [discriminate|].
  destruct (ci_char a x); [apply IH|discriminate].
Qed.

Section CombinatorFacts.
Variable A : Type.

Lemma alt_Some alts s (k : str -> str -> option A) x :
  alt alts s k = Some x ->
  exists a r, In a alts /\ lit a s = Some r
              /\ k (firstn (length a) s) r = Some x.
Proof.
  induction alts as [|a alts IH]; simpl; [discriminate|].
  destruct (lit a s) as [r|] eqn:L.
  - destruct (k (firstn (length a) s) r) as [y|] eqn:K.
    + intros [= ->]. exists a, r. auto.
    + intros H. destruct (IH H) as (a' & r' & I & R). exists a', r'. tauto.
  - intros H. destruct (IH H) as (a' & r' & I & R). exists a', r'. tauto.
Qed.

Lemma ws_star_Some : forall s (k : str -> option A) x,
  ws_star s k = Some x ->
  exists w r, s = w ++ r /\ Forall (fun c => isspace c = true) w
              /\ k r = Some x.
Proof.
  induction s as [|c s IH]; intros k x; simpl.
  - intros H. exists [], []. auto.
  - destruct (isspace c) eqn:W.
    + destruct (ws_star s k) as [y|] eqn:R.
      * intros [= ->]. destruct (IH _ _ R) as (w & r & -> & F & K).
        exists (c :: w), r. auto.
      * intros H. exists [], (c :: s). auto.
    + intros H. exists [], (c :: s). auto.
Qed.

(** The lazy star stops at the first split its continuation accepts. *)
Lemma any_lazy_Some : forall s consumed (k : str -> str -> option A) x,
  any_lazy consumed s k = Some x ->
  exists n, n <= length s
    /\ k (consumed ++ firstn n s) (skipn n s) = Some x
    /\ forall j, j < n -> k (consumed ++ firstn j s) (skipn j s) = None.
Proof.
  induction s as [|c s IH]; intros consumed k x; simpl.
  - destruct (k consumed []) as [y|] eqn:K; [|discriminate].
    intros [= ->]. exists 0. simpl. rewrite app_nil_r.
    repeat split; [lia|assumption|lia].
  - destruct (k consumed (c :: s)) as [y|] eqn:K.
    + intros [= ->]. exists 0. simpl. rewrite app_nil_r.
      repeat split; [lia|assumption|lia].
    + intros H. destruct (IH _ _ _ H) as (n & Ln & Kn & Min).
      exists (S n). simpl. rewrite <- app_assoc in Kn. simpl in Kn.
      repeat split; [lia|assumption|].
      intros [|j] Hj; simpl.
      * now rewrite app_nil_r.
      * specialize (Min j ltac:(lia)).
        now rewrite <- app_assoc in Min.
Qed.
End CombinatorFacts.

(* ------------------------------------------------------------------ *)
(** * Where a value stops *)

Lemma isspace_cases c :
  isspace c = true ->
  In c [9; 10; 11; 12; 13; 28; 29; 30; 31; 32; 133; 160; 5760;
        8192; 8193; 8194; 8195; 8196; 8197; 8198; 8199; 8200; 8201; 8202;
        8232; 8233; 8239; 8287; 12288]%N.
Proof.
  unfold isspace. rewrite !orb_true_iff, !andb_true_iff.
  rewrite !N.leb_le, !N.eqb_eq. simpl. lia.
Qed.

(** No terminator starts with white space. *)
Lemma space_not_terminator c s :
  isspace c = true -> terminator_here (c :: s) = false.
Proof.
  intros H. apply isspace_cases in H. simpl in H.
  repeat (destruct H as [<-|H]; [vm_compute; reflexivity|]).
  destruct H.
Qed.

Lemma alt_unit alts s :
  alt alts s (fun _ _ => Some tt)
  = if existsb (fun a => starts_with a s) alts then Some tt else None.
Proof.
  induction alts as [|a alts IH]; simpl; [reflexivity|].
  unfold starts_with at 1. destruct (lit a s); simpl; [reflexivity|exact IH].
Qed.

(** The stop set of the lookahead, without its [$], is the set of
    terminators of the specification that are not the end of the text:
    [Model:] and [Version:] are covered by the bare words. *)
Lemma stop_alts_terminators s :
  existsb (fun a => starts_with a s) stop_alts
  = existsb (fun l => starts_with l s) LABELS
    || starts_with Model s || starts_with Version s.
Proof.
  pose proof (@starts_with_app Model colon s) as HM.
  pose proof (@starts_with_app Version colon s) as HV.
  unfold stop_alts, LABELS. simpl existsb.
  change (Model ++ colon) with
    [77; 111; 100; 101; 108; 58]%N in HM.
  change (Version ++ colon) with
    [86; 101; 114; 115; 105; 111; 110; 58]%N in HV.
  fold Model Version.
  destruct (starts_with [77; 111; 100; 101; 108; 58]%N s);
    destruct (starts_with [86; 101; 114; 115; 105; 111; 110; 58]%N s);
    destruct (starts_with Model s); destruct (starts_with Version s);
    try (specialize (HM eq_refl)); try (specialize (HV eq_refl));
    try discriminate;
    rewrite ?orb_false_r, ?orb_true_r; reflexivity.
Qed.

Lemma stop_here_terminator s :
  stop_here s = Some tt <-> terminator_here s = true \/ s = [10%N].
Proof.
  unfold stop_here, terminator_here.
  rewrite alt_unit, stop_alts_terminators.
  destruct (existsb (fun l => starts_with l s) LABELS
            || starts_with Model s || starts_with Version s); simpl.
  - tauto.
  - destruct s as [|c [|c' s]]; simpl.
    + tauto.
    + destruct (N.eqb_spec c 10).
      * subst. tauto.
      * split; [discriminate|]. intros [H|[= H]]; [discriminate|contradiction].
    + split; [discriminate|]. intros [H|H]; discriminate.
Qed.

Lemma stop_here_unit s : stop_here s <> None -> stop_here s = Some tt.
Proof. destruct (stop_here s) as [[]|]; congruence. Qed.

Lemma lookahead_nil : lookahead [] = true.
Proof. reflexivity. Qed.

Lemma lookahead_cons c s :
  lookahead (c :: s)
  = (isspace c && lookahead s)
    || match stop_here (c :: s) with Some _ => true | None => false end.
Proof.
  unfold lookahead. simpl ws_star.
  destruct (isspace c); simpl; [|reflexivity].
  destruct (ws_star s stop_here); reflexivity.
Qed.

(** A terminator is accepted by the lookahead. *)
Lemma terminator_lookahead s : terminator_here s = true -> lookahead s = true.
Proof.
  intros T. destruct s as [|c s]; [reflexivity|].
  rewrite lookahead_cons.
  assert (S : stop_here (c :: s) = Some tt)
    by (apply stop_here_terminator; auto).
  rewrite S. apply orb_true_r.
Qed.

(** Where the lookahead succeeds, only white space separates the
    position from the next terminator. *)
Lemma lookahead_spaces : forall s,
  lookahead s = true ->
  Forall (fun c => isspace c = true) (firstn (next_terminator s) s).
Proof.
  induction s as [|c s IH]; intros L.
  - simpl. constructor.
  - cbn [next_terminator]. destruct (terminator_here (c :: s)) eqn:T.
    + constructor.
    + rewrite lookahead_cons in L.
      assert (S : stop_here (c :: s) = Some tt -> c :: s = [10%N]).
      { intros S. apply stop_here_terminator in S.
        destruct S; congruence. }
      destruct (stop_here (c :: s)) as [[]|] eqn:SE.
      * specialize (S eq_refl). injection S as -> ->.
        simpl. repeat constructor.
      * rewrite orb_false_r in L. apply andb_true_iff in L as [W L].
        simpl. constructor; auto.
Qed.

(** The captured value and the text up to the next terminator differ by
    trailing white space only. *)
Lemma value_stops : forall n s,
  n <= length s ->
  lookahead (skipn n s) = true ->
  (forall j, j < n -> lookahead (skipn j s) = false) ->
  exists w, Forall (fun c => isspace c = true) w
            /\ firstn (next_terminator s) s = firstn n s ++ w.
Proof.
  induction n as [|n IH]; intros s Ln L Min.
  - exists (firstn (next_terminator s) s). split; [|reflexivity].
    now apply lookahead_spaces.
  - destruct s as [|c s]; [simpl in Ln; lia|].
    assert (L0 : lookahead (c :: s) = false) by (apply (Min 0); lia).
    assert (T : terminator_here (c :: s) = false).
    { destruct (terminator_here (c :: s)) eqn:T; [|reflexivity].
      apply terminator_lookahead in T. congruence. }
    cbn [next_terminator]. rewrite T.
    destruct (IH s) as (w & W & E).
    + simpl in Ln. lia.
    + exact L.
    + intros j Hj. apply (Min (S j)). lia.
    + exists w. split; [assumption|]. simpl. now rewrite E.
Qed.

Lemma next_terminator_spaces w : forall s,
  Forall (fun c => isspace c = true) w ->
  next_terminator (w ++ s) = length w + next_terminator s.
Proof.
  induction w as [|c w IH]; intros s F; [reflexivity|].
  inversion F as [|? ? Hc F']; subst.
  cbn [app next_terminator]. rewrite space_not_terminator by assumption.
  simpl. f_equal. now apply IH.
Qed.

(* ---- strip ---- *)

Lemma lstrip_spaces w s :
  Forall (fun c => isspace c = true) w -> lstrip (w ++ s) = lstrip s.
Proof.
  induction 1 as [|c w Hc F IH]; simpl; [reflexivity|].
  now rewrite Hc.
Qed.

Lemma rstrip_all_spaces w :
  Forall (fun c => isspace c = true) w -> rstrip w = [].
Proof.
  induction 1 as [|c w Hc F IH]; simpl; [reflexivity|].
  now rewrite IH, Hc.
Qed.

Lemma rstrip_spaces w : forall s,
  Forall (fun c => isspace c = true) w -> rstrip (s ++ w) = rstrip s.
Proof.
  intros s F. induction s as [|c s IH]; simpl.
  - now apply rstrip_all_spaces.
  - now rewrite IH.
Qed.

Lemma lstrip_app w : forall s,
  Forall (fun c => isspace c = true) w ->
  lstrip (s ++ w) = lstrip s ++ w \/ (lstrip s = [] /\ lstrip (s ++ w) = []).
Proof.
  intros s F. induction s as [|c s IH]; simpl.
  - right. split; [reflexivity|].
    rewrite <- (app_nil_r w). rewrite lstrip_spaces by assumption. reflexivity.
  - destruct (isspace c); [exact IH|]. left. reflexivity.
Qed.

Lemma strip_leading_spaces w s :
  Forall (fun c => isspace c = true) w -> strip (w ++ s) = strip s.
Proof. intros F. unfold strip. now rewrite lstrip_spaces. Qed.

Lemma strip_trailing_spaces w s :
  Forall (fun c => isspace c = true) w -> strip (s ++ w) = strip s.
Proof.
  intros F. unfold strip.
  destruct (lstrip_app s F) as [E|[E1 E2]].
  - rewrite E. now apply rstrip_spaces.
  - now rewrite E1, E2.
Qed.

(* ------------------------------------------------------------------ *)
(** * The shape of a match *)

Lemma ci_char_colon x : ci_char 58%N x = true -> x = 58%N.
Proof.
  unfold ci_char. change (sre_lower 58%N) with 58%N.
  change (sre_fixes 58%N) with (@nil char). simpl existsb.
  rewrite orb_false_r. unfold sre_lower, is_ascii_upper, is_latin1_upper.
  destruct ((65 <=? x)%N && (x <=? 90)%N) eqn:U.
  { intros E. n_compare. lia. }
  destruct ((192 <=? x)%N && (x <=? 222)%N && negb (x =? 215)%N) eqn:L.
  { intros E. n_compare. lia. }
  destruct (x =? 304)%N; [discriminate|].
  destruct (x =? 8490)%N; [discriminate|].
  intros E. now apply N.eqb_eq in E.
Qed.

Lemma lit_colon s r : lit colon s = Some r -> s = colon ++ r.
Proof.
  destruct s as [|x s]; simpl; [discriminate|].
  destruct (ci_char 58%N x) eqn:C; [|discriminate].
  intros [= ->]. apply ci_char_colon in C. now subst.
Qed.

Lemma lit_firstn p : forall s r,
  lit p s = Some r -> lit p (firstn (length p) s) = Some [].
Proof.
  induction p as [|a p IH]; intros [|x s] r; simpl; try discriminate;
    try reflexivity.
  destruct (ci_char a x); [apply IH|discriminate].
Qed.

(** A match of [RGX_LABEL] is a recognized label, a colon, white space,
    the value, and then the rest; the value, once trimmed, is the text
    between the colon and the next terminator, trimmed. *)
Lemma RGX_LABEL_shape s label value rest :
  RGX_LABEL s = Some (label, value, rest) ->
  exists after,
    s = label ++ colon ++ after
    /\ (exists a, In a label_alts /\ lit a label = Some [])
    /\ (exists w, after = w ++ value ++ rest)
    /\ strip value = strip (firstn (next_terminator after) after).
Proof.
  unfold RGX_LABEL. intros H.
  apply alt_Some in H as (a & r1 & Ia & La & H).
  destruct (lit colon r1) as [r2|] eqn:Lc; [|discriminate].
  apply ws_star_Some in H as (w & r3 & -> & W & H).
  apply any_lazy_Some in H as (n & Ln & K & Min).
  simpl app in K.
  destruct (lookahead (skipn n r3)) eqn:Look; [|discriminate].
  injection K as <- <- <-.
  apply lit_colon in Lc. subst r1.
  exists (w ++ r3). repeat split.
  - now apply lit_split.
  - exists a. split; [assumption|]. now apply lit_firstn with (r := colon ++ w ++ r3).
  - exists w. now rewrite firstn_skipn.
  - destruct (@value_stops n r3 Ln Look) as (t & T & E).
    + intros j Hj. specialize (Min j Hj). simpl in Min.
      destruct (lookahead (skipn j r3)); [discriminate|reflexivity].
    + rewrite next_terminator_spaces by assumption.
      rewrite firstn_app_2, strip_leading_spaces by assumption.
      rewrite E. now rewrite strip_trailing_spaces.
Qed.

(** Every match the scan yields is a match of [RGX_LABEL] at its start
    position. *)
Lemma finditer_from_In m : forall s pos skip,
  In m (finditer_from pos skip s) ->
  exists before here rest,
    s = before ++ here
    /\ m_start m = pos + length before
    /\ RGX_LABEL here = Some (m_label m, m_value m, rest).
Proof.
  induction s as [|c s IH]; intros pos skip; simpl; [tauto|].
  assert (Shift : forall skip',
    In m (finditer_from (S pos) skip' s) ->
    exists before here rest,
      c :: s = before ++ here
      /\ m_start m = pos + length before
      /\ RGX_LABEL here = Some (m_label m, m_value m, rest)).
  { intros skip' I. destruct (IH _ _ I) as (b & h & r & -> & P & R).
    exists (c :: b), h, r. simpl. repeat split; [lia|assumption]. }
  destruct skip as [|skip]; [|apply Shift].
  destruct (RGX_LABEL (c :: s)) as [[[label value] rest]|] eqn:R;
    [|apply Shift].
  intros [<-|I]; [|now apply Shift in I].
  exists [], (c :: s), rest. simpl. repeat split; [lia|assumption].
Qed.

(** C5: for every text and every match of the labeled-extraction
    pattern, the match is a recognized label followed by a colon, and the
    value stored for it is the text from just after that colon up to the
    next terminator (a recognized label with its colon, the bare word
    Model or Version, or the end of the text), with the white space at
    both ends removed; no character is excluded from the value, so it
    may span lines. *)
Theorem value_runs_to_next_terminator (text : str) (m : Match) :
  In m (finditer text) ->
  exists before after,
    text = before ++ m_label m ++ colon ++ after
    /\ length before = m_start m
    /\ (exists a, In a label_alts /\ lit a (m_label m) = Some [])
    /\ forall results,
         store_match results m
         = dict_set results (stored_key (strip (m_label m)))
             (strip (firstn (next_terminator after) after)).
Proof.
  intros I. apply finditer_from_In in I as (before & here & rest & -> & P & R).
  apply RGX_LABEL_shape in R as (after & -> & A & _ & V).
  exists before, after. repeat split; [symmetry; exact P|exact A|].
  intros results. unfold store_match. now rewrite V.
Qed.

Lemma value_runs_to_next_terminator_witness :
  exists before after,
    Samples.cat_text = before ++ u "Negative prompt" ++ colon ++ after
    /\ length before = 14
    /\ (exists a, In a label_alts /\ lit a (u "Negative prompt") = Some [])
    /\ forall results,
         store_match results (mkMatch 14 (u "Negative prompt") (u "blurry") 37)
         = dict_set results
             (stored_key (strip (u "Negative prompt")))
             (strip (firstn (next_terminator after) after)).
Proof.
  apply (@value_runs_to_next_terminator Samples.cat_text
           (mkMatch 14 (u "Negative prompt") (u "blurry") 37)).
  vm_compute. right. left. reflexivity.
Defined.

(* ------------------------------------------------------------------ *)
(** * Repeated labels *)

Lemma str_eqb_eq a b : str_eqb a b = true <-> a = b.
Proof. unfold str_eqb. destruct (str_eq_dec a b); split; congruence. Qed.

Lemma str_eqb_refl a : str_eqb a a = true.
Proof. now apply str_eqb_eq. Qed.

Lemma str_eqb_sym a b : str_eqb a b = str_eqb b a.
Proof.
  unfold str_eqb. destruct (str_eq_dec a b), (str_eq_dec b a); congruence.
Qed.

Lemma existsb_str_eqb x l : existsb (str_eqb x) l = true <-> In x l.
Proof.
  rewrite existsb_exists. split.
  - intros (y & I & E). apply str_eqb_eq in E. now subst.
  - intros I. exists x. split; [assumption|apply str_eqb_refl].
Qed.

Lemma filter_twice (A : Type) (P Q : A -> bool) l :
  filter P (filter Q l) = filter (fun x => Q x && P x) l.
Proof.
  induction l as [|x l IH]; simpl; [reflexivity|].
  destruct (Q x); simpl; [destruct (P x)|]; now rewrite IH.
Qed.

Lemma first_occurrences_In ks x : In x (first_occurrences ks) -> In x ks.
Proof.
  revert x. induction ks as [|k ks IH]; simpl; [tauto|].
  intros x [E|I]; [auto|].
  apply filter_In in I as [I _]. auto.
Qed.

(** The loop of [parse_labeled] is a dict update with the stored items. *)
Lemma parse_labeled_update text :
  parse_labeled text = dict_update [] (stored_items text).
Proof.
  unfold parse_labeled, stored_items, dict_update.
  generalize (@nil (str * str)).
  induction (finditer text) as [|m ms IH]; intros d; simpl; [reflexivity|].
  now rewrite IH.
Qed.

(** Keys of an updated dict: the old keys, then the new ones in order of
    first occurrence. *)
Lemma dict_keys_update (V : Type) (e : dict V) : forall d : dict V,
  dict_keys (dict_update d e)
  = dict_keys d
    ++ filter (fun x => negb (existsb (str_eqb x) (dict_keys d)))
         (first_occurrences (map fst e)).
Proof.
  induction e as [|[k v] e IH]; intros d.
  - unfold dict_update. simpl. now rewrite app_nil_r.
  - change (dict_update d ((k, v) :: e))
      with (dict_update (dict_set d k v) e).
    rewrite IH, dict_keys_set. cbn [map fst first_occurrences filter].
    destruct (in_dec str_eq_dec k (dict_keys d)) as [I|I].
    + assert (E : existsb (str_eqb k) (dict_keys d) = true)
        by now apply existsb_str_eqb.
      rewrite E. simpl negb. cbv iota. f_equal.
      rewrite filter_twice. apply filter_ext. intros x.
      destruct (existsb (str_eqb x) (dict_keys d)) eqn:X; simpl.
      * now rewrite andb_false_r.
      * rewrite andb_true_r.
        destruct (str_eqb k x) eqn:Kx; [|reflexivity].
        apply str_eqb_eq in Kx. subst. congruence.
    + assert (E : existsb (str_eqb k) (dict_keys d) = false).
      { destruct (existsb (str_eqb k) (dict_keys d)) eqn:X; [|reflexivity].
        apply existsb_str_eqb in X. contradiction. }
      rewrite E. simpl negb. cbv iota.
      rewrite <- app_assoc. simpl. do 2 f_equal.
      rewrite filter_twice. apply filter_ext. intros x.
      rewrite existsb_app. simpl. rewrite orb_false_r, negb_orb.
      rewrite (str_eqb_sym x k). apply andb_comm.
Qed.

Lemma parse_labeled_keys text :
  dict_keys (parse_labeled text)
  = first_occurrences (map fst (stored_items text)).
Proof.
  rewrite parse_labeled_update, dict_keys_update. simpl.
  induction (first_occurrences (map fst (stored_items text))) as [|k ks IH];
    simpl; congruence.
Qed.



(* ------------------------------------------------------------------ *)
(** * The presenter *)

Lemma order_NoDup : NoDup order.
Proof.
  unfold order.
  repeat (constructor; [simpl; intros H;
    repeat (destruct H as [H|H]; [discriminate H|]); exact H|]).
  constructor.
Qed.

(** No two canonical labels agree without regard to case. *)
Lemma order_lower_NoDup : NoDup (map lower order).
Proof.
  vm_compute.
  repeat (constructor; [simpl; intros H;
    repeat (destruct H as [H|H]; [discriminate H|]); exact H|]).
  constructor.
Qed.

Lemma unrecognized_not_canonical k : unrecognized k -> ~ In k order.
Proof. intros U I. exact (U k I eq_refl). Qed.

Lemma same_label_iff k c : same_label c k = true <-> lower k = lower c.
Proof. unfold same_label. apply str_eqb_eq. Qed.

Lemma recognized_iff k :
  existsb (fun c => same_label c k) order = true
  <-> exists c, In c order /\ lower k = lower c.
Proof.
  rewrite existsb_exists. split; intros (c & I & E); exists c;
    (split; [assumption|now apply same_label_iff]).
Qed.

Lemma flat_map_agree (A B : Type) (f g : A -> list B) l :
  (forall a, In a l -> f a = g a) -> flat_map f l = flat_map g l.
Proof.
  induction l as [|a l IH]; simpl; intros H; [reflexivity|].
  rewrite (H a) by auto. f_equal. apply IH. auto.
Qed.

Lemma find_filter (A : Type) (P Q : A -> bool) l :
  (forall x, P x = true -> Q x = true) -> find P (filter Q l) = find P l.
Proof.
  intros H. induction l as [|x l IH]; simpl; [reflexivity|].
  destruct (P x) eqn:Px.
  - rewrite (H x Px). simpl. now rewrite Px.
  - destruct (Q x); simpl; [rewrite Px|]; exact IH.
Qed.

Lemma lower_keys_NoDup (meta : dict str) :
  NoDup (map lower (dict_keys meta)) -> NoDup (dict_keys meta).
Proof. apply NoDup_map_inv. Qed.

Lemma filter_lower_keys_NoDup (P : str * str -> bool) (meta : dict str) :
  NoDup (map lower (dict_keys meta)) ->
  NoDup (map lower (dict_keys (filter P meta))).
Proof.
  induction meta as [|[k v] meta IH]; intros ND; simpl; [constructor|].
  inversion ND as [|? ? Hk ND']; subst.
  destruct (P (k, v)); simpl; [|auto].
  constructor; [|auto].
  intros I. apply Hk. unfold dict_keys in *.
  apply in_map_iff in I as (k' & E & I).
  apply in_map_iff in I as (kv & E' & I). apply filter_In in I as [I _].
  rewrite <- E, <- E'. apply in_map. now apply in_map.
Qed.

Lemma filter_keys_NoDup (P : str * str -> bool) (meta : dict str) :
  NoDup (dict_keys meta) -> NoDup (dict_keys (filter P meta)).
Proof.
  induction meta as [|[k v] meta IH]; intros ND; simpl; [constructor|].
  inversion ND as [|? ? Hk ND']; subst.
  destruct (P (k, v)); simpl; [|auto].
  constructor; [|auto].
  intros I. apply Hk. unfold dict_keys in *.
  apply in_map_iff in I as (kv & E & I). apply filter_In in I as [I _].
  rewrite <- E. now apply in_map.
Qed.

(** With at most one key per label, popping the key found for a label
    removes every entry that matches the label. *)
Lemma pop_found (c mk v : str) : forall meta : dict str,
  NoDup (map lower (dict_keys meta)) ->
  find (fun kv => same_label c (fst kv)) meta = Some (mk, v) ->
  dict_remove meta mk
  = filter (fun kv => negb (same_label c (fst kv))) meta.
Proof.
  induction meta as [|[k w] meta IH]; intros ND F; [discriminate F|].
  inversion ND as [|? ? Hk ND']; subst.
  simpl in F |- *. destruct (same_label c k) eqn:S.
  - injection F as -> ->. destruct (str_eq_dec mk mk); [|congruence].
    simpl. symmetry. apply forallb_filter_id, forallb_forall.
    intros [k' w'] I. simpl. apply negb_true_iff.
    destruct (same_label c k') eqn:S'; [|reflexivity].
    exfalso. apply Hk.
    apply same_label_iff in S. apply same_label_iff in S'.
    rewrite S, <- S'. apply in_map.
    change k' with (fst (k', w')). now apply in_map.
  - simpl. destruct (str_eq_dec k mk) as [->|N].
    + apply find_some in F as [_ F]. simpl in F. congruence.
    + f_equal. now apply IH.
Qed.

(** The loop over the canonical labels moves the entry found for each
    label to the output, under the label's canonical spelling and in the
    order of the labels. *)
Lemma take_labels ord : forall shown meta : dict str,
  NoDup (map lower ord) ->
  NoDup (map lower (dict_keys meta)) ->
  (forall c, In c ord -> ~ In c (dict_keys shown)) ->
  fold_left take_label ord (shown, meta)
  = (shown ++ flat_map (fun c => match lookup_ci meta c with
                                 | Some v => [(c, v)]
                                 | None => []
                                 end) ord,
     filter (fun kv => negb (existsb (fun c => same_label c (fst kv)) ord))
            meta).
Proof.
  induction ord as [|c ord IH]; intros shown meta NDo NDm Fresh.
  - simpl. rewrite app_nil_r. f_equal.
    symmetry. apply forallb_filter_id. now apply forallb_forall.
  - inversion NDo as [|? ? Hc NDo']; subst.
    assert (NDc : ~ In c ord).
    { intros I. apply Hc. now apply in_map. }
    cbn [fold_left flat_map]. unfold take_label at 2, lookup_ci at 1.
    fold (same_label c).
    change (fun kv : str * str => str_eqb (lower (fst kv)) (lower c))
      with (fun kv : str * str => same_label c (fst kv)).
    destruct (find (fun kv => same_label c (fst kv)) meta)
      as [[mk v]|] eqn:F.
    + rewrite dict_set_absent by (apply Fresh; simpl; auto).
      rewrite (@pop_found c mk v meta NDm F).
      rewrite IH; try assumption.
      * rewrite <- app_assoc. f_equal; [f_equal; f_equal|].
        -- apply flat_map_agree. intros c' I'. unfold lookup_ci.
           rewrite find_filter; [reflexivity|].
           intros [k' w'] S'. simpl in *. apply negb_true_iff.
           destruct (same_label c k') eqn:S; [|reflexivity].
           exfalso. apply Hc.
           apply str_eqb_eq in S'. apply same_label_iff in S.
           rewrite <- S, S'. now apply in_map.
        -- rewrite filter_twice. apply filter_ext. intros [k' w']. simpl.
           now rewrite negb_orb.
      * now apply filter_lower_keys_NoDup.
      * intros c' I'. unfold dict_keys. rewrite map_app, in_app_iff.
        simpl. intros [I|[E|[]]].
        -- apply (Fresh c'); simpl; auto.
        -- subst. contradiction.
    + rewrite IH; try assumption.
      * f_equal. apply filter_ext_in. intros [k' w'] I. simpl.
        pose proof (find_none _ _ F _ I) as Z. simpl in Z. now rewrite Z.
      * intros c' I'. apply Fresh. simpl. auto.
Qed.

Lemma canonical_part_keys meta k :
  In k (dict_keys (canonical_part meta)) -> In k order.
Proof.
  unfold canonical_part, dict_keys. rewrite in_map_iff.
  intros ([k' v] & <- & I). apply in_flat_map in I as (c & Ic & I).
  destruct (lookup_ci meta c); simpl in I; [|tauto].
  destruct I as [[= <- <-]|[]]. exact Ic.
Qed.

Lemma canonical_part_NoDup meta : NoDup (dict_keys (canonical_part meta)).
Proof.
  unfold canonical_part, dict_keys.
  pose proof order_NoDup as NDo. revert NDo.
  generalize order as ord.
  induction ord as [|c ord IH]; intros NDo; simpl; [constructor|].
  inversion NDo as [|? ? Hc NDo']; subst.
  rewrite map_app. destruct (lookup_ci meta c); simpl; [|auto].
  constructor; [|auto].
  rewrite in_map_iff. intros ([k' w] & E & Ik). simpl in E. subst k'.
  apply in_flat_map in Ik as (c' & Ic' & Ik).
  destruct (lookup_ci meta c'); simpl in Ik; [|tauto].
  destruct Ik as [[= -> ->]|[]]. contradiction.
Qed.

(** The presenter on a field map with at most one key per label: the
    entries found for the canonical labels, in canonical order and under
    their canonical spelling, then the others in insertion order. *)
Lemma display_dict_layout (meta : dict str) :
  NoDup (map lower (dict_keys meta)) ->
  display_dict meta
  = canonical_part meta
    ++ filter (fun kv => negb (existsb (fun c => same_label c (fst kv)) order))
         meta.
Proof.
  intros ND. unfold display_dict.
  rewrite take_labels; simpl app.
  - fold (canonical_part meta). apply dict_update_fresh.
    + apply filter_keys_NoDup. now apply lower_keys_NoDup.
    + intros k I C. apply canonical_part_keys in C.
      unfold dict_keys in I. apply in_map_iff in I as ([k' v] & <- & I).
      apply filter_In in I as [_ I]. cbn [fst] in *.
      apply negb_true_iff in I.
      assert (R : existsb (fun c => same_label c k') order = true).
      { apply recognized_iff. exists k'. auto. }
      change (existsb (fun c => same_label c k') order = false) in I.
      congruence.
  - exact order_lower_NoDup.
  - exact ND.
  - simpl. tauto.
Qed.

Lemma filter_nothing (P : str -> bool) (meta : dict str) :
  (forall k, In k (dict_keys meta) -> P k = false) ->
  filter (fun kv => P (fst kv)) meta = [].
Proof.
  induction meta as [|[k v] meta IH]; simpl; intros H; [reflexivity|].
  rewrite (H k) by auto. apply IH. auto.
Qed.

Lemma filter_only (P : str -> bool) (foo v : str) : forall meta : dict str,
  NoDup (dict_keys meta) ->
  dict_get meta foo = Some v ->
  P foo = true ->
  (forall k, In k (dict_keys meta) -> k <> foo -> P k = false) ->
  filter (fun kv => P (fst kv)) meta = [(foo, v)].
Proof.
  induction meta as [|[k w] meta IH]; simpl; intros ND G Pf Others;
    [discriminate|].
  inversion ND as [|? ? Hk ND']; subst.
  destruct (str_eq_dec k foo) as [->|N].
  - injection G as ->. rewrite Pf. f_equal.
    apply filter_nothing. intros k I. apply Others; [auto|].
    intros ->. contradiction.
  - rewrite (Others k) by auto. apply IH; auto.
Qed.

(** C9: for every field map whose keys are canonical labels, in any
    case and at most one key per label, plus one unrecognized key [foo],
    the presenter's output is the entries found for the canonical labels
    that are present, under their canonical spelling and in canonical
    order, followed by the entry of [foo]; no key occurs twice in it. *)
Theorem presenter_canonical_then_unrecognized
  (meta : dict str) (foo : str) :
  NoDup (map lower (dict_keys meta)) ->
  In foo (dict_keys meta) ->
  unrecognized foo ->
  (forall k, In k (dict_keys meta) ->
             k = foo \/ exists c, In c order /\ lower k = lower c) ->
  exists v,
    dict_get meta foo = Some v
    /\ display_dict meta = canonical_part meta ++ [(foo, v)]
    /\ NoDup (dict_keys (display_dict meta)).
Proof.
  intros ND I U Keys.
  destruct (dict_get meta foo) as [v|] eqn:G;
    [|apply dict_get_None in G; contradiction].
  exists v. split; [reflexivity|].
  assert (L : display_dict meta = canonical_part meta ++ [(foo, v)]).
  { rewrite display_dict_layout by exact ND. f_equal.
    apply (@filter_only
             (fun k => negb (existsb (fun c => same_label c k) order)));
      try assumption.
    - now apply lower_keys_NoDup.
    - apply negb_true_iff.
      destruct (existsb (fun c => same_label c foo) order) eqn:E;
        [|reflexivity].
      apply recognized_iff in E as (c & Ic & E). now apply U in Ic.
    - intros k Ik N. apply negb_false_iff, recognized_iff.
      destruct (Keys k Ik); [contradiction|assumption]. }
  split; [exact L|].
  rewrite L. unfold dict_keys. rewrite map_app.
  apply NoDup_app.
  - apply canonical_part_NoDup.
  - simpl. repeat constructor. simpl. tauto.
  - intros k C [<-|[]]. apply canonical_part_keys in C.
    now apply unrecognized_not_canonical in C.
Qed.

Lemma presenter_canonical_then_unrecognized_witness :
  exists v,
    dict_get Samples.shuffled_fields (u "Foo") = Some v
    /\ display_dict Samples.shuffled_fields
       = canonical_part Samples.shuffled_fields ++ [(u "Foo", v)]
    /\ NoDup (dict_keys (display_dict Samples.shuffled_fields)).
Proof.
  apply (@presenter_canonical_then_unrecognized
           Samples.shuffled_fields (u "Foo")).
  - vm_compute.
    repeat (constructor; [simpl; intros H;
      repeat (destruct H as [H|H]; [discriminate H|]); exact H|]).
    constructor.
  - simpl. auto.
  - intros c Ic. unfold order in Ic. simpl in Ic.
    repeat (destruct Ic as [<-|Ic]; [vm_compute; discriminate|]).
    destruct Ic.
  - simpl. intros k [<-|[<-|[<-|[]]]].
    + left. reflexivity.
    + right. exists (u "Seed"). vm_compute. tauto.
    + right. exists Prompt. vm_compute. tauto.
Defined.

(** The sample field map, presented. *)
Example shuffled_fields_presented :
  display_dict Samples.shuffled_fields
  = [(Prompt, u "3"); (u "Seed", u "2"); (u "Foo", u "1")].
Proof. reflexivity. Qed.

(* ------------------------------------------------------------------ *)
(** * The keys the parser produces *)

Lemma sre_lower_cases x :
  (is_ascii_upper x = true /\ sre_lower x = (x + 32)%N)
  \/ (is_latin1_upper x = true /\ sre_lower x = (x + 32)%N)
  \/ (x = 304%N /\ sre_lower x = 105%N)
  \/ (x = 8490%N /\ sre_lower x = 107%N)
  \/ (is_ascii_upper x = false /\ sre_lower x = x).
Proof.
  unfold sre_lower.
  destruct (is_ascii_upper x); [tauto|].
  destruct (is_latin1_upper x); [tauto|].
  destruct (N.eqb_spec x 304); [tauto|].
  destruct (N.eqb_spec x 8490); tauto.
Qed.

Lemma sre_lower_inv x v :
  sre_lower x = v ->
  x = v \/ (x + 32 = v /\ (x <= 90 \/ 192 <= x <= 222))%N
  \/ (x = 304 /\ v = 105)%N \/ (x = 8490 /\ v = 107)%N.
Proof.
  destruct (sre_lower_cases x)
    as [[U E]|[[U E]|[[-> E]|[[-> E]|[U E]]]]]; rewrite E; intros <-;
    unfold is_ascii_upper, is_latin1_upper in *; n_compare; lia.
Qed.

Lemma ci_char_true a x :
  ci_char a x = true ->
  sre_lower x = sre_lower a \/ In (sre_lower x) (sre_fixes (sre_lower a)).
Proof.
  unfold ci_char. rewrite orb_true_iff, N.eqb_eq, existsb_exists.
  intros [E|(y & I & E)]; [auto|].
  apply N.eqb_eq in E. subst y. auto.
Qed.

(** A character that starts a match of a label alternative is not white
    space, and its title case is one ASCII capital. *)
Lemma label_head_char a x :
  In a [80; 78; 83; 67; 77; 86]%N ->
  ci_char a x = true ->
  isspace x = false
  /\ exists y, title_char x = [y] /\ is_ascii_upper y = true.
Proof.
  intros Ia C. apply ci_char_true in C.
  assert (X : In x [80; 112; 78; 110; 83; 115; 383; 67; 99; 77; 109;
                    86; 118]%N).
  { remember (sre_lower x) as lx eqn:E. symmetry in E.
    apply sre_lower_inv in E. simpl in Ia.
    repeat (destruct Ia as [<-|Ia];
      [ vm_compute in C;
        repeat (destruct C as [C|C]); try contradiction;
        subst lx; simpl; lia
      | ]).
    destruct Ia. }
  simpl in X.
  repeat (destruct X as [<-|X];
    [split; [reflexivity|eexists; split; reflexivity]|]).
  destruct X.
Qed.

Lemma label_alts_head a :
  In a label_alts ->
  exists a0 a', a = a0 :: a' /\ In a0 [80; 78; 83; 67; 77; 86]%N.
Proof.
  unfold label_alts. simpl. intros H.
  repeat (destruct H as [<-|H];
    [eexists; eexists; split; [reflexivity|simpl; tauto]|]).
  destruct H.
Qed.

Lemma strip_head x l : isspace x = false -> exists r, strip (x :: l) = x :: r.
Proof.
  intros H. unfold strip. simpl lstrip. rewrite H. simpl rstrip.
  destruct (rstrip l) as [|c r]; [rewrite H|]; eexists; reflexivity.
Qed.

Lemma stored_key_capitalised a label :
  In a label_alts -> lit a label = Some [] ->
  capitalised (stored_key (strip label)).
Proof.
  intros Ia L. apply label_alts_head in Ia as (a0 & a' & -> & I0).
  destruct label as [|x l]; [discriminate L|].
  apply lit_head in L.
  destruct (@label_head_char a0 x I0 L) as (W & y & T & U).
  destruct (@strip_head x l W) as (r & ->).
  unfold stored_key.
  destruct (str_eqb (lower (x :: r)) cfg_scale);
    [eexists; eexists; split; reflexivity|].
  destruct (str_eqb (lower (x :: r)) negative_prompt);
    [eexists; eexists; split; reflexivity|].
  destruct (str_eqb (lower (x :: r)) model_hash);
    [eexists; eexists; split; reflexivity|].
  unfold title. simpl title_from. rewrite T. simpl app.
  eexists; eexists; split; [reflexivity|exact U].
Qed.

Lemma stored_items_capitalised text k v :
  In (k, v) (stored_items text) -> capitalised k.
Proof.
  unfold stored_items. rewrite in_map_iff. intros (m & [= <- _] & I).
  apply finditer_from_In in I as (before & here & rest & _ & _ & R).
  apply RGX_LABEL_shape in R as (after & _ & (a & Ia & L) & _).
  eapply stored_key_capitalised; eassumption.
Qed.

Lemma dict_update_keys_In (V : Type) (d e : dict V) k :
  In k (dict_keys (dict_update d e)) ->
  In k (dict_keys d) \/ In k (dict_keys e).
Proof.
  rewrite dict_keys_update, in_app_iff. intros [I|I]; [auto|].
  apply filter_In in I as [I _]. apply first_occurrences_In in I. auto.
Qed.

Lemma dict_set_keys_In (V : Type) (d : dict V) k0 v k :
  In k (dict_keys (dict_set d k0 v)) -> In k (dict_keys d) \/ k = k0.
Proof.
  rewrite dict_keys_set.
  destruct (in_dec str_eq_dec k0 (dict_keys d)); [auto|].
  rewrite in_app_iff. simpl. intuition.
Qed.

Lemma parse_labeled_capitalised text k :
  In k (dict_keys (parse_labeled text)) -> capitalised k.
Proof.
  rewrite parse_labeled_keys. intros I. apply first_occurrences_In in I.
  apply in_map_iff in I as ([k' v] & <- & I).
  eapply stored_items_capitalised; eassumption.
Qed.

Lemma Prompt_capitalised : capitalised Prompt.
Proof. eexists; eexists; split; reflexivity. Qed.

Lemma parse_no_prompt_label_capitalised text k :
  In k (dict_keys (parse_no_prompt_label text)) -> capitalised k.
Proof.
  unfold parse_no_prompt_label.
  destruct (search_next_label text) as [end_index|].
  - intros I. apply dict_update_keys_In in I as [I|I].
    + destruct (strip (firstn end_index text)); simpl in I.
      * destruct I.
      * destruct I as [<-|[]]. exact Prompt_capitalised.
    + eapply parse_labeled_capitalised; eassumption.
  - simpl. intros [<-|[]]. exact Prompt_capitalised.
Qed.

(** Every key of the parser's result starts with an ASCII capital. *)
Lemma parse_sd_text_capitalised text k :
  In k (dict_keys (parse_sd_text text)) -> capitalised k.
Proof.
  rewrite parse_sd_text_unfold. intros I.
  apply dict_set_keys_In in I as [I| ->].
  - eapply parse_no_prompt_label_capitalised; eassumption.
  - eexists; eexists; split; reflexivity.
Qed.

Lemma locator_keys_not_parsed text k :
  In k [key_format; key_foundIn; key_error] ->
  ~ In k (dict_keys (parse_sd_text text)).
Proof.
  intros Ik I. apply parse_sd_text_capitalised in I as (y & r & E & U).
  simpl in Ik. destruct Ik as [<-|[<-|[<-|[]]]];
    injection E as <- _; discriminate U.
Qed.

(* ------------------------------------------------------------------ *)
(** * The locator *)

Lemma dict_get_update (V : Type) (e : dict V) k : forall d : dict V,
  NoDup (dict_keys e) ->
  dict_get (dict_update d e) k
  = match dict_get e k with
    | Some v => Some v
    | None => dict_get d k
    end.
Proof.
  induction e as [|[k' v'] e IH]; intros d ND; [reflexivity|].
  inversion ND as [|? ? Hk ND']; subst.
  change (dict_update d ((k', v') :: e))
    with (dict_update (dict_set d k' v') e).
  rewrite IH by assumption. simpl.
  destruct (str_eq_dec k' k) as [->|N].
  - assert (G : dict_get e k = None) by now apply dict_get_None.
    rewrite G. apply dict_get_set_eq.
  - destruct (dict_get e k); [reflexivity|].
    now apply dict_get_set_neq.
Qed.

Lemma parse_no_prompt_label_NoDup text :
  NoDup (dict_keys (parse_no_prompt_label text)).
Proof.
  unfold parse_no_prompt_label.
  destruct (search_next_label text) as [end_index|].
  - apply dict_update_NoDup.
    destruct (strip (firstn end_index text)); simpl.
    + constructor.
    + repeat constructor. simpl. tauto.
  - simpl. repeat constructor. simpl. tauto.
Qed.

Lemma parse_sd_text_NoDup text : NoDup (dict_keys (parse_sd_text text)).
Proof.
  rewrite parse_sd_text_unfold. apply dict_set_NoDup.
  apply parse_no_prompt_label_NoDup.
Qed.

(** The decoder with [errors="ignore"] never raises: it yields the
    decoded code points and nothing for the undecodable ranges. *)
Lemma fallback_search_total bdata :
  fallback_search bdata = Ok (decoded_only (utf8_items bdata)).
Proof.
  unfold fallback_search, decode_utf8.
  induction (utf8_items bdata) as [|[c|w] items IH]; simpl.
  - reflexivity.
  - now rewrite IH.
  - exact IH.
Qed.

(** The record the locator returns once a source is chosen. *)
Lemma located_fields f source text :
  let meta := dict_update [(key_format, f); (key_foundIn, source)]
                          (parse_sd_text text) in
  dict_get meta key_foundIn = Some source
  /\ dict_get meta RawSnippet = Some text
  /\ dict_get meta key_error = None.
Proof.
  cbv zeta. rewrite !dict_get_update by apply parse_sd_text_NoDup.
  rewrite parse_sd_text_RawSnippet.
  assert (N : forall k, In k [key_format; key_foundIn; key_error] ->
                        dict_get (parse_sd_text text) k = None).
  { intros k I. apply dict_get_None. now apply locator_keys_not_parsed. }
  rewrite !N by (simpl; tauto).
  repeat split.
Qed.

Lemma two_fields (f source : str) :
  dict_set (dict_set [] key_format f) key_foundIn source
  = [(key_format, f); (key_foundIn, source)].
Proof.
  simpl. destruct (str_eq_dec key_format key_foundIn) as [E|_];
    [discriminate E|reflexivity].
Qed.

(** [extract_sd_meta] once the image is open and its properties are
    collected. *)
Lemma extract_sd_meta_opened L bdata img details :
  Image_open L bdata = Ok img ->
  collect_details img = Ok details ->
  extract_sd_meta L bdata
  = if truthy (pillow_str_of details) then
      update_or_error [(key_format, format img);
                       (key_foundIn, Pillow_info_text)]
        (call_parse_sd_text (pillow_str_of details))
    else
      match (if str_eqb (format img) WEBP
             then extract_exif_usercomment L img else []) with
      | (_ :: _) as exif_str =>
          dict_update [(key_format, format img);
                       (key_foundIn, Exif_UserComment)]
            (parse_sd_text exif_str)
      | [] =>
          dict_update [(key_format, format img); (key_foundIn, Fallback)]
            (parse_sd_text (decoded_only (utf8_items bdata)))
      end.
Proof.
  intros O C. unfold extract_sd_meta. rewrite O, C.
  fold (pillow_str_of details). rewrite !two_fields.
  destruct (truthy (pillow_str_of details)); [reflexivity|].
  rewrite fallback_search_total.
  destruct (if str_eqb (format img) WEBP
            then extract_exif_usercomment L img else []); reflexivity.
Qed.




(** What the sample with both sources would yield from its UserComment
    alone. *)
Example both_library_comment_readable :
  extract_exif_usercomment Samples.both_library Samples.webp_both_image
  = u "Seed: 5".
Proof. reflexivity. Qed.

(** C7 as stated fails: on the bytes [A], an invalid [FF], [B] the
    fallback text is [AB]; the invalid byte is dropped, where decoding
    with a placeholder gives [A], U+FFFD, [B]. *)
Lemma fallback_puts_no_placeholder :
  fallback_search Samples.garbled = Ok (u "AB")
  /\ decode_utf8 Replace Samples.garbled = Ok [65; REPLACEMENT; 66]%N
  /\ fallback_search Samples.garbled <> decode_utf8 Replace Samples.garbled
  /\ dict_get (extract_sd_meta Samples.bare_library Samples.garbled)
       RawSnippet = Some (u "AB").
Proof. vm_compute. repeat split. discriminate. Qed.

(** C7, amended: when neither the [parameters] property nor the EXIF
    UserComment gives a non-empty text, the locator decodes all of the
    raw bytes as UTF-8, dropping every byte range that cannot be decoded;
    the decoding never fails, and the fallback source is selected with
    the resulting text, whether or not that text is empty. *)
Theorem fallback_drops_undecodable
  (L : Library) (bdata : bytes) (img : Image) (details : dict PyVal) :
  Image_open L bdata = Ok img ->
  collect_details img = Ok details ->
  truthy (pillow_str_of details) = false ->
  (if str_eqb (format img) WEBP
   then extract_exif_usercomment L img else []) = [] ->
  fallback_search bdata = Ok (decoded_only (utf8_items bdata))
  /\ extract_sd_meta L bdata
     = dict_update [(key_format, format img); (key_foundIn, Fallback)]
         (parse_sd_text (decoded_only (utf8_items bdata)))
  /\ dict_get (extract_sd_meta L bdata) key_foundIn = Some Fallback
  /\ dict_get (extract_sd_meta L bdata) RawSnippet
     = Some (decoded_only (utf8_items bdata))
  /\ dict_get (extract_sd_meta L bdata) key_error = None.
Proof.
  intros O C P X. split; [apply fallback_search_total|].
  rewrite (extract_sd_meta_opened _ _ O C), P, X.
  split; [reflexivity|]. apply located_fields.
Qed.

Lemma fallback_drops_undecodable_witness :
  fallback_search Samples.garbled
  = Ok (decoded_only (utf8_items Samples.garbled))
  /\ extract_sd_meta Samples.bare_library Samples.garbled
     = dict_update [(key_format, format Samples.bare_image);
                    (key_foundIn, Fallback)]
         (parse_sd_text (decoded_only (utf8_items Samples.garbled)))
  /\ dict_get (extract_sd_meta Samples.bare_library Samples.garbled)
       key_foundIn = Some Fallback
  /\ dict_get (extract_sd_meta Samples.bare_library Samples.garbled)
       RawSnippet = Some (decoded_only (utf8_items Samples.garbled))
  /\ dict_get (extract_sd_meta Samples.bare_library Samples.garbled)
       key_error = None.
Proof.
  apply (@fallback_drops_undecodable
           Samples.bare_library Samples.garbled Samples.bare_image []).
  - reflexivity.
  - reflexivity.
  - reflexivity.
  - reflexivity.
Defined.

(** The fallback source is selected with an empty text too. *)
Example fallback_with_empty_text :
  extract_sd_meta Samples.bare_library [xff]
  = [(key_format, PNG); (key_foundIn, Fallback); (Prompt, []);
     (RawSnippet, [])].
Proof. reflexivity. Qed.

(** C8 as stated fails: for a WEBP image without a [parameters]
    property whose UserComment entry is rejected by the user-comment
    decoder, the locator does not fall through to the fallback: it
    selects the EXIF UserComment with the raw bytes of the entry decoded
    as UTF-8. *)
Lemma malformed_comment_is_still_selected :
  pillow_str_of (info Samples.webp_image) = VStr []
  /\ UserComment_load Samples.bad_comment_library
       (VBytes Samples.hello_bytes) = Raise Samples.ValueError
  /\ dict_get (extract_sd_meta Samples.bad_comment_library Samples.webp_bytes)
       key_foundIn = Some Exif_UserComment
  /\ dict_get (extract_sd_meta Samples.bad_comment_library Samples.webp_bytes)
       key_foundIn <> Some Fallback
  /\ dict_get (extract_sd_meta Samples.bad_comment_library Samples.webp_bytes)
       RawSnippet = Some (u "hello").
Proof. vm_compute. repeat split. discriminate. Qed.

Lemma exif_usercomment_missing L img :
  dict_get (info img) key_exif = None -> extract_exif_usercomment L img = [].
Proof. intros H. unfold extract_exif_usercomment. now rewrite H. Qed.

Lemma exif_usercomment_load_fails L img exif e :
  dict_get (info img) key_exif = Some exif ->
  piexif_load L exif = Raise e ->
  extract_exif_usercomment L img = [].
Proof.
  intros H P. unfold extract_exif_usercomment, exif_try_body.
  now rewrite H, P.
Qed.

Lemma exif_usercomment_malformed L img exif exif_dict uc e :
  dict_get (info img) key_exif = Some exif ->
  piexif_load L exif = Ok exif_dict ->
  tag_get (exif_ifd exif_dict) UserComment_tag = Some (VBytes uc) ->
  uc <> [] ->
  UserComment_load L (VBytes uc) = Raise e ->
  extract_exif_usercomment L img = decoded_only (utf8_items uc).
Proof.
  intros H P T NE U. unfold extract_exif_usercomment, exif_try_body.
  rewrite H, P. fold (exif_ifd exif_dict). rewrite T.
  destruct uc as [|b uc]; [contradiction|]. simpl truthy. cbv iota.
  rewrite U. unfold decode_ignore.
  change (decode_utf8 Ignore (b :: uc)) with (fallback_search (b :: uc)).
  now rewrite fallback_search_total.
Qed.

(** C8, amended: for a WEBP image without a non-empty [parameters]
    property, no failure while reading the EXIF UserComment reaches the
    caller (the record has no [error] entry).  When the EXIF block is
    missing or cannot be loaded, the source counts as absent and the
    fallback is selected.  When the UserComment entry is rejected by the
    user-comment decoder, its raw bytes are decoded as UTF-8 with the
    undecodable ranges dropped: the EXIF UserComment is selected with
    that text if it is not empty, and the fallback otherwise. *)
Theorem exif_failures_are_recovered
  (L : Library) (bdata : bytes) (img : Image) (details : dict PyVal) :
  Image_open L bdata = Ok img ->
  format img = WEBP ->
  collect_details img = Ok details ->
  truthy (pillow_str_of details) = false ->
  dict_get (extract_sd_meta L bdata) key_error = None
  /\ (dict_get (info img) key_exif = None ->
      dict_get (extract_sd_meta L bdata) key_foundIn = Some Fallback)
  /\ (forall exif e,
        dict_get (info img) key_exif = Some exif ->
        piexif_load L exif = Raise e ->
        dict_get (extract_sd_meta L bdata) key_foundIn = Some Fallback)
  /\ (forall exif exif_dict uc e,
        dict_get (info img) key_exif = Some exif ->
        piexif_load L exif = Ok exif_dict ->
        tag_get (exif_ifd exif_dict) UserComment_tag = Some (VBytes uc) ->
        uc <> [] ->
        UserComment_load L (VBytes uc) = Raise e ->
        match decoded_only (utf8_items uc) with
        | [] =>
            dict_get (extract_sd_meta L bdata) key_foundIn = Some Fallback
        | _ :: _ =>
            dict_get (extract_sd_meta L bdata) key_foundIn
            = Some Exif_UserComment
            /\ dict_get (extract_sd_meta L bdata) RawSnippet
               = Some (decoded_only (utf8_items uc))
        end).
Proof.
  intros O W C P.
  rewrite (extract_sd_meta_opened _ _ O C), P, W.
  change (str_eqb WEBP WEBP) with true. cbv iota.
  repeat split.
  - destruct (extract_exif_usercomment L img); apply located_fields.
  - intros H. rewrite exif_usercomment_missing by assumption.
    apply located_fields.
  - intros exif e H E.
    rewrite (exif_usercomment_load_fails _ _ H E). apply located_fields.
  - intros exif exif_dict uc e H E T NE U.
    rewrite (exif_usercomment_malformed _ _ H E T NE U).
    destruct (decoded_only (utf8_items uc)) eqn:D.
    + apply located_fields.
    + split; apply located_fields.
Qed.

Lemma exif_failures_are_recovered_witness :
  let L := Samples.bad_comment_library in
  let bdata := Samples.webp_bytes in
  let img := Samples.webp_image in
  dict_get (extract_sd_meta L bdata) key_error = None
  /\ (dict_get (info img) key_exif = None ->
      dict_get (extract_sd_meta L bdata) key_foundIn = Some Fallback)
  /\ (forall exif e,
        dict_get (info img) key_exif = Some exif ->
        piexif_load L exif = Raise e ->
        dict_get (extract_sd_meta L bdata) key_foundIn = Some Fallback)
  /\ (forall exif exif_dict uc e,
        dict_get (info img) key_exif = Some exif ->
        piexif_load L exif = Ok exif_dict ->
        tag_get (exif_ifd exif_dict) UserComment_tag = Some (VBytes uc) ->
        uc <> [] ->
        UserComment_load L (VBytes uc) = Raise e ->
        match decoded_only (utf8_items uc) with
        | [] =>
            dict_get (extract_sd_meta L bdata) key_foundIn = Some Fallback
        | _ :: _ =>
            dict_get (extract_sd_meta L bdata) key_foundIn
            = Some Exif_UserComment
            /\ dict_get (extract_sd_meta L bdata) RawSnippet
               = Some (decoded_only (utf8_items uc))
        end).
Proof.
  apply (@exif_failures_are_recovered
           Samples.bad_comment_library Samples.webp_bytes
           Samples.webp_image (info Samples.webp_image)).
  - reflexivity.
  - reflexivity.
  - reflexivity.
  - reflexivity.
Defined.

(* ------------------------------------------------------------------ *)
(** * More about the labeled extraction *)

Lemma lit_app p q : forall s,
  lit (p ++ q) s = match lit p s with
                   | Some r => lit q r
                   | None => None
                   end.
Proof.
  induction p as [|a p IH]; intros s; simpl.
  - reflexivity.
  - destruct s as [|x s]; [reflexivity|].
    destruct (ci_char a x); [apply IH|reflexivity].
Qed.

Section Totality.
Variable A : Type.

Lemma alt_found alts s (k : str -> str -> option A) a r :
  In a alts -> lit a s = Some r -> k (firstn (length a) s) r <> None ->
  alt alts s k <> None.
Proof.
  induction alts as [|a' alts IH]; simpl; [tauto|].
  intros [->|I] L K.
  - rewrite L. destruct (k (firstn (length a) s) r); [discriminate|tauto].
  - destruct (lit a' s) as [r'|].
    + destruct (k (firstn (length a') s) r'); [discriminate|eauto].
    + eauto.
Qed.

Lemma ws_star_found : forall s (k : str -> option A),
  (forall r, k r <> None) -> ws_star s k <> None.
Proof.
  induction s as [|c s IH]; intros k K; simpl; [apply K|].
  destruct (isspace c); [|apply K].
  destruct (ws_star s k); [discriminate|apply K].
Qed.

Lemma any_lazy_found : forall s consumed (k : str -> str -> option A),
  (forall v, k v [] <> None) -> any_lazy consumed s k <> None.
Proof.
  induction s as [|c s IH]; intros consumed k K; simpl.
  - destruct (k consumed []) eqn:E; [discriminate|]. now apply K in E.
  - destruct (k consumed (c :: s)); [discriminate|]. now apply IH.
Qed.
End Totality.

Lemma RGX_LABEL_label_colon (s : str) :
  RGX_LABEL s <> None
  <-> exists a, In a label_alts /\ starts_with (a ++ colon) s = true.
Proof.
  split.
  - destruct (RGX_LABEL s) as [[[label value] rest]|] eqn:R; [|tauto].
    intros _. unfold RGX_LABEL in R.
    apply alt_Some in R as (a & r1 & Ia & La & K).
    exists a. split; [assumption|].
    unfold starts_with. rewrite lit_app, La.
    destruct (lit colon r1); [reflexivity|discriminate].
  - intros (a & Ia & S). unfold starts_with in S. rewrite lit_app in S.
    destruct (lit a s) as [r1|] eqn:La; [|discriminate].
    destruct (lit colon r1) as [r2|] eqn:Lc; [|discriminate].
    unfold RGX_LABEL. eapply alt_found; [exact Ia|exact La|]. rewrite Lc.
    apply ws_star_found. intros r3. apply any_lazy_found. intros v.
    rewrite lookahead_nil. discriminate.
Qed.

(** X1: the labeled-extraction pattern matches at a position exactly
    when the text there starts with one of the ten labels, in any case,
    followed by a colon; whatever follows the colon, the match
    succeeds. *)
Theorem RGX_LABEL_matches_iff_label_colon (s : str) :
  RGX_LABEL s <> None
  <-> exists a, In a label_alts /\ starts_with (a ++ colon) s = true.
Proof. exact (RGX_LABEL_label_colon s). Qed.

(* ---- the spans of the matches ---- *)

Lemma RGX_LABEL_width s label value rest :
  RGX_LABEL s = Some (label, value, rest) -> length rest < length s.
Proof.
  intros R. apply RGX_LABEL_shape in R as (after & -> & _ & (w & ->) & _).
  rewrite !length_app. simpl. lia.
Qed.

Lemma finditer_from_bounds : forall s pos skip m,
  In m (finditer_from pos skip s) ->
  pos + skip <= m_start m /\ m_start m < m_end m
  /\ m_end m <= pos + length s.
Proof.
  induction s as [|c s IH]; intros pos skip m; [simpl; tauto|].
  cbn [finditer_from]. cbv zeta.
  change (length (c :: s)) with (S (length s)).
  destruct skip as [|skip].
  - destruct (RGX_LABEL (c :: s)) as [[[label value] rest]|] eqn:R.
    + apply RGX_LABEL_width in R.
      change (length (c :: s)) with (S (length s)) in R.
      intros [<-|I]; cbn [m_start m_end].
      * lia.
      * apply IH in I. lia.
    + intros I. apply IH in I. lia.
  - intros I. apply IH in I. lia.
Qed.

Lemma finditer_from_sorted : forall s pos skip,
  StronglySorted precedes (finditer_from pos skip s).
Proof.
  induction s as [|c s IH]; intros pos skip; [constructor|].
  cbn [finditer_from]. cbv zeta.
  change (length (c :: s)) with (S (length s)).
  destruct skip as [|skip]; [|apply IH].
  destruct (RGX_LABEL (c :: s)) as [[[label value] rest]|] eqn:R;
    [|apply IH].
  apply RGX_LABEL_width in R.
  change (length (c :: s)) with (S (length s)) in R.
  constructor; [apply IH|].
  apply Forall_forall. intros m I. apply finditer_from_bounds in I.
  unfold precedes. cbn [m_start m_end]. lia.
Qed.

(** X2: the matches come out from left to right and do not overlap:
    each one is a non-empty span inside the text, and each ends no later
    than any later one starts. *)
Theorem matches_ordered_and_disjoint (text : str) :
  StronglySorted precedes (finditer text)
  /\ forall m, In m (finditer text) ->
       m_start m < m_end m /\ m_end m <= length text.
Proof.
  split; [apply finditer_from_sorted|].
  intros m I. apply finditer_from_bounds in I. simpl in I. lia.
Qed.

(* ---- text without a colon ---- *)

Lemma lit_colon_In p : forall s r,
  lit p s = Some r -> In 58%N p -> In 58%N s.
Proof.
  induction p as [|a p IH]; intros [|x s] r; simpl; try tauto;
    try discriminate.
  destruct (ci_char a x) eqn:C; [|discriminate].
  intros L [->|I].
  - left. now apply ci_char_colon.
  - right. eapply IH; eassumption.
Qed.

Lemma In_skipn (A : Type) (x : A) n : forall l, In x (skipn n l) -> In x l.
Proof.
  induction n as [|n IH]; intros [|y l]; simpl; auto.
Qed.

Lemma finditer_no_colon text : ~ In 58%N text -> finditer text = [].
Proof.
  intros N. destruct (finditer text) as [|m ms] eqn:F; [reflexivity|].
  exfalso. apply N.
  assert (I : In m (finditer text)) by (rewrite F; simpl; auto).
  apply finditer_from_In in I as (before & here & rest & -> & _ & R).
  apply RGX_LABEL_shape in R as (after & -> & _).
  rewrite !in_app_iff. right. right. left. simpl. auto.
Qed.

Lemma next_label_here_colon s : next_label_here s = true -> In 58%N s.
Proof.
  unfold next_label_here.
  destruct (alt (tl LABELS) s (fun _ r => lit space r)) eqn:E;
    [|discriminate].
  intros _. apply alt_Some in E as (a & r & Ia & La & _).
  eapply lit_colon_In; [exact La|].
  unfold LABELS in Ia. simpl in Ia.
  repeat (destruct Ia as [<-|Ia]; [simpl; tauto|]). destruct Ia.
Qed.

Lemma search_next_label_Some : forall s p,
  search_next_label s = Some p ->
  p <= length s /\ next_label_here (skipn p s) = true.
Proof.
  induction s as [|c s IH]; intros p; simpl.
  - discriminate.
  - destruct (next_label_here (c :: s)) eqn:E.
    + intros [= <-]. simpl. split; [lia|assumption].
    + destruct (search_next_label s) as [q|]; [|discriminate].
      intros [= <-]. destruct (IH q eq_refl). simpl. split; [lia|assumption].
Qed.

Lemma search_no_colon text : ~ In 58%N text -> search_next_label text = None.
Proof.
  intros N. destruct (search_next_label text) as [p|] eqn:E; [|reflexivity].
  exfalso. apply N. apply search_next_label_Some in E as [_ E].
  apply next_label_here_colon in E. now apply In_skipn in E.
Qed.

(** X3: a text without a colon yields no labeled field at all: the
    labeled extraction is empty, and the parser's result is the whole
    text, trimmed, under Prompt, next to RawSnippet. *)
Theorem no_colon_no_labels (text : str) :
  ~ In 58%N text ->
  parse_labeled text = []
  /\ parse_sd_text text = [(Prompt, strip text); (RawSnippet, text)].
Proof.
  intros N. split.
  - unfold parse_labeled. now rewrite finditer_no_colon.
  - rewrite parse_sd_text_unfold. unfold parse_no_prompt_label.
    rewrite search_no_colon by assumption. simpl.
    destruct (str_eq_dec Prompt RawSnippet) as [E|_];
      [discriminate E|reflexivity].
Qed.

Lemma no_colon_no_labels_witness :
  parse_labeled (u "just some words") = []
  /\ parse_sd_text (u "just some words")
     = [(Prompt, strip (u "just some words"));
        (RawSnippet, u "just some words")].
Proof.
  apply (@no_colon_no_labels (u "just some words")).
  vm_compute. intros H.
  repeat (destruct H as [H|H]; [discriminate H|]). exact H.
Defined.

(* ---- stored values are trimmed ---- *)

Lemma lstrip_head s :
  lstrip s = [] \/ exists x l, lstrip s = x :: l /\ isspace x = false.
Proof.
  induction s as [|c s IH]; simpl; [auto|].
  destruct (isspace c) eqn:W; [exact IH|]. right. eauto.
Qed.

Lemma rstrip_cons_keep x l :
  isspace x = false -> exists r, rstrip (x :: l) = x :: r.
Proof.
  intros W. simpl. destruct (rstrip l); [rewrite W|]; eauto.
Qed.

Lemma rstrip_idempotent s : rstrip (rstrip s) = rstrip s.
Proof.
  induction s as [|c s IH]; simpl; [reflexivity|].
  destruct (rstrip s) as [|y r] eqn:R.
  - destruct (isspace c) eqn:W; simpl; [reflexivity|now rewrite W].
  - change (rstrip (c :: y :: r))
      with (match rstrip (y :: r) with
            | [] => if isspace c then [] else [c]
            | r' => c :: r'
            end).
    now rewrite IH.
Qed.

Lemma strip_idempotent s : strip (strip s) = strip s.
Proof.
  unfold strip. destruct (lstrip_head s) as [E|(x & l & E & W)]; rewrite E.
  - reflexivity.
  - destruct (@rstrip_cons_keep x l W) as (r & R). rewrite R.
    simpl lstrip. rewrite W. rewrite <- R. apply rstrip_idempotent.
Qed.

Lemma dict_set_In (V : Type) (d : dict V) k0 v0 k v :
  In (k, v) (dict_set d k0 v0) -> In (k, v) d \/ (k = k0 /\ v = v0).
Proof.
  induction d as [|[k' v'] d IH]; simpl.
  - intros [[= <- <-]|[]]. auto.
  - destruct (str_eq_dec k' k0) as [->|N]; simpl.
    + intros [[= <- <-]|I]; auto.
    + intros [E|I]; [auto|]. destruct (IH I); auto.
Qed.

Lemma dict_update_In (V : Type) (e : dict V) k v : forall d : dict V,
  In (k, v) (dict_update d e) -> In (k, v) d \/ In (k, v) e.
Proof.
  induction e as [|[k' v'] e IH]; intros d; [simpl; auto|].
  change (dict_update d ((k', v') :: e))
    with (dict_update (dict_set d k' v') e).
  intros I. apply IH in I as [I|I]; [|simpl; auto].
  apply dict_set_In in I as [I|[-> ->]]; simpl; auto.
Qed.

Lemma parse_labeled_trimmed text k v :
  In (k, v) (parse_labeled text) -> strip v = v.
Proof.
  rewrite parse_labeled_update. intros I.
  apply dict_update_In in I as [[]|I].
  unfold stored_items in I. apply in_map_iff in I as (m & [= _ <-] & _).
  apply strip_idempotent.
Qed.

Lemma parse_no_prompt_label_trimmed text k v :
  In (k, v) (parse_no_prompt_label text) -> strip v = v.
Proof.
  unfold parse_no_prompt_label.
  destruct (search_next_label text) as [p|].
  - intros I. apply dict_update_In in I as [I|I].
    + destruct (strip (firstn p text)) as [|c r] eqn:E; simpl in I.
      * destruct I.
      * destruct I as [[= _ <-]|[]]. rewrite <- E. apply strip_idempotent.
    + eapply parse_labeled_trimmed; eassumption.
  - simpl. intros [[= _ <-]|[]]. apply strip_idempotent.
Qed.

(** X4: every value the parser stores, except the raw snippet, is
    trimmed: it has no white space at either end. *)
Theorem stored_values_are_trimmed (text k v : str) :
  In (k, v) (parse_sd_text text) ->
  k <> RawSnippet ->
  strip v = v.
Proof.
  rewrite parse_sd_text_unfold. intros I N.
  apply dict_set_In in I as [I|[E _]]; [|contradiction].
  eapply parse_no_prompt_label_trimmed; eassumption.
Qed.

Lemma stored_values_are_trimmed_witness :
  strip (u "20") = u "20".
Proof.
  apply (@stored_values_are_trimmed (u "  photo   Steps:   20  ")
           (u "Steps") (u "20")).
  - vm_compute. tauto.
  - discriminate.
Defined.

(* ---- the heuristic always finds something ---- *)

Lemma LABELS_tail : tl LABELS = map (fun a => a ++ colon) (tl label_alts).
Proof. reflexivity. Qed.

(** A literal that ends in a colon still matches once the white space
    at the end of the text is removed. *)
Lemma lit_colon_rstrip p : forall s r,
  lit (p ++ colon) s = Some r -> exists r', lit (p ++ colon) (rstrip s) = Some r'.
Proof.
  induction p as [|a p IH]; intros [|x s] r; try discriminate.
  - cbn [app]. intros L. apply lit_colon in L. injection L as -> _.
    destruct (@rstrip_cons_keep 58%N s eq_refl) as (t & ->).
    exists t. reflexivity.
  - change (lit ((a :: p) ++ colon) (x :: s))
      with (if ci_char a x then lit (p ++ colon) s else None).
    destruct (ci_char a x) eqn:C; [|discriminate].
    intros L. destruct (IH _ _ L) as (r' & R).
    simpl rstrip. destruct (rstrip s) as [|y t] eqn:E.
    + destruct p; discriminate R.
    + change (lit ((a :: p) ++ colon) (x :: y :: t))
        with (if ci_char a x then lit (p ++ colon) (y :: t) else None).
      rewrite C. eauto.
Qed.

Lemma next_label_here_matches s :
  next_label_here s = true -> RGX_LABEL (strip s) <> None.
Proof.
  unfold next_label_here.
  destruct (alt (tl LABELS) s (fun _ r => lit space r)) eqn:E;
    [|discriminate].
  intros _. apply alt_Some in E as (l & r & Il & Ll & _).
  rewrite LABELS_tail in Il. apply in_map_iff in Il as (a & <- & Ia).
  assert (Ia' : In a label_alts).
  { unfold label_alts in *. simpl in *. tauto. }
  apply RGX_LABEL_label_colon. exists a. split; [assumption|].
  (* the text starts with a letter, so only its end is trimmed *)
  assert (H : lstrip s = s).
  { destruct (label_alts_head Ia') as (a0 & a' & -> & I0).
    destruct s as [|x s]; [discriminate Ll|].
    apply lit_head in Ll.
    destruct (@label_head_char a0 x I0 Ll) as (W & _).
    simpl. now rewrite W. }
  unfold strip. rewrite H.
  destruct (lit_colon_rstrip _ _ Ll) as (r' & R).
  unfold starts_with. now rewrite R.
Qed.

Lemma label_head_values a x :
  In a [80; 78; 83; 67; 77; 86]%N ->
  ci_char a x = true ->
  In x [80; 112; 78; 110; 83; 115; 383; 67; 99; 77; 109; 86; 118]%N.
Proof.
  intros Ia C. apply ci_char_true in C.
  remember (sre_lower x) as lx eqn:E. symmetry in E.
  apply sre_lower_inv in E. simpl in Ia.
  repeat (destruct Ia as [<-|Ia];
    [ vm_compute in C;
      repeat (destruct C as [C|C]); try contradiction;
      subst lx; simpl; lia
    | ]).
  destruct Ia.
Qed.

Lemma stored_key_not_RawSnippet a label :
  In a label_alts -> lit a label = Some [] ->
  stored_key (strip label) <> RawSnippet.
Proof.
  intros Ia L. apply label_alts_head in Ia as (a0 & a' & -> & I0).
  destruct label as [|x l]; [discriminate L|].
  apply lit_head in L.
  destruct (@label_head_char a0 x I0 L) as (W & _).
  pose proof (@label_head_values a0 x I0 L) as X.
  destruct (@strip_head x l W) as (r & ->).
  unfold stored_key.
  destruct (str_eqb (lower (x :: r)) cfg_scale); [discriminate|].
  destruct (str_eqb (lower (x :: r)) negative_prompt); [discriminate|].
  destruct (str_eqb (lower (x :: r)) model_hash); [discriminate|].
  unfold title. simpl title_from. simpl in X.
  repeat (destruct X as [<-|X]; [discriminate|]). destruct X.
Qed.

Lemma parse_labeled_not_RawSnippet text :
  ~ In RawSnippet (dict_keys (parse_labeled text)).
Proof.
  rewrite parse_labeled_keys. intros I. apply first_occurrences_In in I.
  apply in_map_iff in I as ([k v] & E & I). simpl in E. subst k.
  unfold stored_items in I. apply in_map_iff in I as (m & [= E _] & I).
  apply finditer_from_In in I as (before & here & rest & _ & _ & R).
  apply RGX_LABEL_shape in R as (after & _ & (a & Ia & L) & _).
  exact (stored_key_not_RawSnippet _ Ia L E).
Qed.

Lemma parse_no_prompt_label_not_RawSnippet text :
  ~ In RawSnippet (dict_keys (parse_no_prompt_label text)).
Proof.
  unfold parse_no_prompt_label.
  destruct (search_next_label text) as [p|].
  - intros I. apply dict_update_keys_In in I as [I|I].
    + destruct (strip (firstn p text)); simpl in I.
      * destruct I.
      * destruct I as [E|[]]. discriminate E.
    + exact (parse_labeled_not_RawSnippet _ I).
  - simpl. intros [E|[]]. discriminate E.
Qed.

Lemma parse_labeled_nonempty s : RGX_LABEL s <> None -> parse_labeled s <> [].
Proof.
  intros R E.
  assert (K : dict_keys (parse_labeled s) = []) by now rewrite E.
  rewrite parse_labeled_keys in K. unfold stored_items, finditer in K.
  destruct s as [|c s]; [apply R; reflexivity|].
  cbn [finditer_from] in K.
  destruct (RGX_LABEL (c :: s)) as [[[label value] rest]|]; [|tauto].
  discriminate K.
Qed.

Lemma dict_update_nonempty (V : Type) (e d : dict V) :
  d <> [] -> dict_update d e <> [].
Proof.
  intros N E.
  assert (K : dict_keys (dict_update d e) = []) by now rewrite E.
  rewrite dict_keys_update in K. apply app_eq_nil in K as [K _].
  destruct d; [tauto|discriminate K].
Qed.

Lemma dict_update_nil (V : Type) (e : dict V) :
  e <> [] -> dict_update [] e <> [].
Proof.
  destruct e as [|[k v] e]; [tauto|]. intros _.
  change (dict_update [] ((k, v) :: e)) with (dict_update [(k, v)] e).
  apply dict_update_nonempty. discriminate.
Qed.

Lemma parse_no_prompt_label_nonempty text : parse_no_prompt_label text <> [].
Proof.
  unfold parse_no_prompt_label.
  destruct (search_next_label text) as [p|] eqn:S; [|discriminate].
  apply search_next_label_Some in S as [_ S].
  apply next_label_here_matches, parse_labeled_nonempty in S.
  destruct (strip (firstn p text)).
  - now apply dict_update_nil.
  - apply dict_update_nonempty. discriminate.
Qed.

(** X5: the parser's result is never empty of fields: it is the
    heuristic's result, which holds at least one entry and no RawSnippet
    key, followed by the RawSnippet entry. *)
Theorem parser_always_yields_a_field (text : str) :
  parse_sd_text text = parse_no_prompt_label text ++ [(RawSnippet, text)]
  /\ parse_no_prompt_label text <> [].
Proof.
  split; [|apply parse_no_prompt_label_nonempty].
  rewrite parse_sd_text_unfold. apply dict_set_absent.
  apply parse_no_prompt_label_not_RawSnippet.
Qed.

(* ---- the recovered prompt ---- *)

Lemma dict_update_head (V : Type) (e : dict V) : forall k v (d : dict V),
  exists v' d', dict_update ((k, v) :: d) e = (k, v') :: d'.
Proof.
  induction e as [|[k1 v1] e IH]; intros k v d; [simpl; eauto|].
  change (dict_update ((k, v) :: d) ((k1, v1) :: e))
    with (dict_update (dict_set ((k, v) :: d) k1 v1) e).
  simpl dict_set. destruct (str_eq_dec k k1); apply IH.
Qed.

Lemma parse_labeled_NoDup text : NoDup (dict_keys (parse_labeled text)).
Proof.
  rewrite parse_labeled_update. apply dict_update_NoDup. constructor.
Qed.

(** X6: when the heuristic finds a label at position [p] and the text
    before it is not blank, Prompt is the first key of its result; its
    value is that text, trimmed, unless the text from [p] on has a
    [Prompt:] label of its own, whose value then replaces it. *)
Theorem recovered_prompt_comes_first (text : str) (p : nat) (c : char)
  (r : str) :
  search_next_label text = Some p ->
  strip (firstn p text) = c :: r ->
  exists v others,
    parse_no_prompt_label text = (Prompt, v) :: others
    /\ v = match dict_get (parse_labeled (strip (skipn p text))) Prompt with
           | Some labeled => labeled
           | None => c :: r
           end.
Proof.
  intros S E. unfold parse_no_prompt_label. rewrite S, E. simpl dict_set.
  destruct (dict_update_head (parse_labeled (strip (skipn p text)))
              Prompt (c :: r) []) as (v & others & U).
  exists v, others. split; [exact U|].
  assert (G : dict_get ((Prompt, v) :: others) Prompt = Some v).
  { simpl. destruct (str_eq_dec Prompt Prompt); congruence. }
  rewrite <- U in G.
  rewrite dict_get_update in G by apply parse_labeled_NoDup.
  destruct (dict_get (parse_labeled (strip (skipn p text))) Prompt).
  - congruence.
  - simpl in G. destruct (str_eq_dec Prompt Prompt); congruence.
Qed.

Lemma recovered_prompt_comes_first_witness :
  exists v others,
    parse_no_prompt_label (u "a dog Steps: 1 Prompt: a cat")
    = (Prompt, v) :: others
    /\ v = match dict_get
                   (parse_labeled
                      (strip (skipn 6 (u "a dog Steps: 1 Prompt: a cat"))))
                   Prompt with
           | Some labeled => labeled
           | None => u "a dog"
           end.
Proof.
  apply (@recovered_prompt_comes_first
           (u "a dog Steps: 1 Prompt: a cat") 6 97%N (u " dog")).
  - reflexivity.
  - reflexivity.
Defined.

(** The sample of the witness: the later label wins. *)
Example later_Prompt_label_replaces_recovered :
  parse_no_prompt_label (u "a dog Steps: 1 Prompt: a cat")
  = [(Prompt, u "a cat"); (u "Steps", u "1")].
Proof. reflexivity. Qed.

(* ------------------------------------------------------------------ *)
(** * ASCII text *)

Lemma below_128_In x :
  (x < 128)%N -> In x (map N.of_nat (seq 0 128)).
Proof.
  intros H. apply in_map_iff. exists (N.to_nat x). split.
  - apply N2Nat.id.
  - apply in_seq. lia.
Qed.

(** Two ASCII characters that agree without regard to case have the same
    lower case, the same title case, and are both cased or both not, and
    both white space or both not. *)
Lemma ascii_ci_same p x :
  (p < 128)%N -> (x < 128)%N -> ci_char p x = true ->
  lower_char x = lower_char p /\ title_char x = title_char p
  /\ iscased x = iscased p /\ isspace x = isspace p.
Proof.
  intros Hp Hx C.
  assert (T : forallb (fun p => forallb (fun x =>
              implb (ci_char p x)
                (str_eqb (lower_char x) (lower_char p)
                 && str_eqb (title_char x) (title_char p)
                 && Bool.eqb (iscased x) (iscased p)
                 && Bool.eqb (isspace x) (isspace p)))
              (map N.of_nat (seq 0 128))) (map N.of_nat (seq 0 128)) = true)
    by (vm_compute; reflexivity).
  rewrite forallb_forall in T. specialize (T p (below_128_In Hp)).
  rewrite forallb_forall in T. specialize (T x (below_128_In Hx)).
  rewrite C in T. simpl in T.
  apply andb_true_iff in T as [T S]. apply andb_true_iff in T as [T I].
  apply andb_true_iff in T as [Lo Ti].
  apply str_eqb_eq in Lo, Ti. apply Bool.eqb_prop in I, S. auto.
Qed.

Lemma lit_ascii_same a : forall label,
  ascii_text a -> ascii_text label -> lit a label = Some [] ->
  lower label = lower a
  /\ (forall b, title_from b label = title_from b a)
  /\ map isspace label = map isspace a.
Proof.
  induction a as [|p a IH]; intros [|x label] Ha Hl L; try discriminate.
  - auto.
  - inversion Ha as [|? ? Hp Ha']; inversion Hl as [|? ? Hx Hl']; subst.
    simpl in L. destruct (ci_char p x) eqn:C; [|discriminate].
    destruct (ascii_ci_same Hp Hx C) as (Lo & Ti & Ca & Sp).
    destruct (IH label Ha' Hl' L) as (E1 & E2 & E3).
    repeat split.
    + unfold lower in *. simpl. now rewrite Lo, E1.
    + intros b. simpl. rewrite Lo, Ti, Ca, E2. reflexivity.
    + simpl. now rewrite Sp, E3.
Qed.

Lemma rstrip_same_spaces a : forall l,
  map isspace a = map isspace l -> rstrip a = a -> rstrip l = l.
Proof.
  induction a as [|p a IH]; intros [|x l] M R; try discriminate;
    [reflexivity|].
  injection M as Sp M. simpl in R |- *.
  destruct (rstrip a) as [|y t] eqn:Ra.
  - destruct (isspace p) eqn:W; [discriminate R|].
    injection R as <-. destruct l; [|discriminate M].
    simpl. now rewrite <- Sp.
  - injection R as <-. rewrite (IH l M eq_refl).
    destruct l; [discriminate M|reflexivity].
Qed.

Lemma strip_same_spaces a l :
  map isspace a = map isspace l -> strip a = a -> strip l = l.
Proof.
  intros M S. unfold strip in *.
  destruct a as [|p a], l as [|x l]; try discriminate; [reflexivity|].
  injection M as Sp M. simpl lstrip in *.
  destruct (isspace p) eqn:W.
  - exfalso. (* a trimmed text does not start with white space *)
    destruct (lstrip_head a) as [E|(y & t & E & Wy)]; rewrite E in S.
    + discriminate S.
    + destruct (@rstrip_cons_keep y t Wy) as (r & R). rewrite R in S.
      injection S as -> _. congruence.
  - assert (Wx : isspace x = false) by congruence.
    cbn [lstrip]. rewrite Wx.
    apply (@rstrip_same_spaces (p :: a)); [|assumption].
    simpl. now rewrite W, Wx, M.
Qed.

Lemma label_alts_canonical a :
  In a label_alts ->
  ascii_text a /\ strip a = a /\ In (stored_key a) order.
Proof.
  unfold label_alts. simpl. intros H.
  repeat (destruct H as [<-|H];
    [split; [repeat constructor|split; [reflexivity|vm_compute; tauto]]|]).
  destruct H.
Qed.

(** A label matched in ASCII text is stored under its canonical key. *)
Lemma ascii_label_canonical a label :
  In a label_alts -> ascii_text label -> lit a label = Some [] ->
  In (stored_key (strip label)) order.
Proof.
  intros Ia Hl L. destruct (label_alts_canonical Ia) as (Ha & Sa & Ka).
  destruct (lit_ascii_same Ha Hl L) as (Lo & Ti & Sp).
  rewrite (@strip_same_spaces a label (eq_sym Sp) Sa).
  unfold stored_key in *. rewrite Lo. unfold title in *. now rewrite Ti.
Qed.

Lemma ascii_text_app s t : ascii_text (s ++ t) <-> ascii_text s /\ ascii_text t.
Proof. apply Forall_app. Qed.

Lemma parse_labeled_ascii_keys text k :
  ascii_text text -> In k (dict_keys (parse_labeled text)) -> In k order.
Proof.
  intros A I. rewrite parse_labeled_keys in I.
  apply first_occurrences_In in I.
  apply in_map_iff in I as ([k' v] & E & I). simpl in E. subst k'.
  unfold stored_items in I. apply in_map_iff in I as (m & [= <- _] & I).
  apply finditer_from_In in I as (before & here & rest & -> & _ & R).
  apply RGX_LABEL_shape in R as (after & -> & (a & Ia & L) & _).
  apply ascii_text_app in A as [_ A]. apply ascii_text_app in A as [A _].
  eapply ascii_label_canonical; eassumption.
Qed.

Lemma lstrip_incl s x : In x (lstrip s) -> In x s.
Proof.
  induction s as [|c s IH]; simpl; [tauto|].
  destruct (isspace c); simpl; tauto.
Qed.

Lemma rstrip_incl s x : In x (rstrip s) -> In x s.
Proof.
  induction s as [|c s IH]; simpl; [tauto|].
  destruct (rstrip s) as [|y t].
  - destruct (isspace c); simpl; tauto.
  - simpl in *. tauto.
Qed.

Lemma strip_incl s x : In x (strip s) -> In x s.
Proof. unfold strip. intros I. now apply lstrip_incl, rstrip_incl. Qed.

Lemma ascii_text_strip_skipn text p :
  ascii_text text -> ascii_text (strip (skipn p text)).
Proof.
  unfold ascii_text. rewrite !Forall_forall. intros A x I.
  apply A. apply strip_incl in I. now apply In_skipn in I.
Qed.

Lemma Prompt_in_order : In Prompt order.
Proof. vm_compute. tauto. Qed.

Lemma parse_no_prompt_label_ascii_keys text k :
  ascii_text text -> In k (dict_keys (parse_no_prompt_label text)) ->
  In k order.
Proof.
  intros A. unfold parse_no_prompt_label.
  destruct (search_next_label text) as [p|].
  - intros I. apply dict_update_keys_In in I as [I|I].
    + destruct (strip (firstn p text)); simpl in I.
      * destruct I.
      * destruct I as [<-|[]]. exact Prompt_in_order.
    + eapply parse_labeled_ascii_keys; [|eassumption].
      now apply ascii_text_strip_skipn.
  - simpl. intros [<-|[]]. exact Prompt_in_order.
Qed.

(** X7: for ASCII text, every key of the parser's result is one of the
    ten canonical labels of the presenter, or RawSnippet. *)
Theorem ascii_text_gives_canonical_keys (text k : str) :
  ascii_text text ->
  In k (dict_keys (parse_sd_text text)) ->
  k = RawSnippet \/ In k order.
Proof.
  intros A I. rewrite parse_sd_text_unfold in I.
  apply dict_set_keys_In in I as [I|E]; [right|left; exact E].
  eapply parse_no_prompt_label_ascii_keys; eassumption.
Qed.

Lemma ascii_text_gives_canonical_keys_witness :
  u "CFG Scale" = RawSnippet \/ In (u "CFG Scale") order.
Proof.
  apply (@ascii_text_gives_canonical_keys
           (u "a cat cfg SCALE: 7 model HASH: abc") (u "CFG Scale")).
  - vm_compute. repeat constructor.
  - vm_compute. tauto.
Defined.

(** Outside ASCII a matched label can be stored under a key that is no
    canonical label: with a dotless i, [sıze] is stored as [Sıze]. *)
Example dotless_i_key_is_not_canonical :
  dict_keys (parse_labeled (u "s" ++ [305%N] ++ u "ze: 1"))
  = [u "S" ++ [305%N] ++ u "ze"]
  /\ ~ In (u "S" ++ [305%N] ++ u "ze") order.
Proof.
  split; [reflexivity|]. vm_compute. intros H.
  repeat (destruct H as [H|H]; [discriminate H|]). exact H.
Qed.

(* ------------------------------------------------------------------ *)
(** * More about the locator *)

Lemma located_format (f source text : str) :
  dict_get (dict_update [(key_format, f); (key_foundIn, source)]
                        (parse_sd_text text)) key_format = Some f.
Proof.
  rewrite dict_get_update by apply parse_sd_text_NoDup.
  assert (N : dict_get (parse_sd_text text) key_format = None).
  { apply dict_get_None. apply locator_keys_not_parsed. simpl. tauto. }
  rewrite N. reflexivity.
Qed.

Lemma dict_get_error_set (d : dict str) e :
  dict_get (dict_set d key_error e) key_error = Some e.
Proof. apply dict_get_set_eq. Qed.

(** The shapes of a record that holds an error. *)
Lemma extract_sd_meta_cases L bdata :
  (exists e, Image_open L bdata = Raise e
             /\ extract_sd_meta L bdata = [(key_error, e)])
  \/ (exists img e, Image_open L bdata = Ok img
        /\ extract_sd_meta L bdata
           = [(key_format, format img); (key_error, e)])
  \/ (exists img, Image_open L bdata = Ok img
        /\ extract_sd_meta L bdata
           = [(key_format, format img); (key_foundIn, Pillow_info_text);
              (key_error, TypeError)])
  \/ (exists img details source text,
        Image_open L bdata = Ok img
        /\ collect_details img = Ok details
        /\ extract_sd_meta L bdata
           = dict_update [(key_format, format img); (key_foundIn, source)]
                         (parse_sd_text text)
        /\ ((source = Pillow_info_text
             /\ pillow_str_of details = VStr text /\ text <> [])
            \/ (source = Exif_UserComment
                /\ truthy (pillow_str_of details) = false
                /\ format img = WEBP
                /\ text = extract_exif_usercomment L img /\ text <> [])
            \/ (source = Fallback
                /\ truthy (pillow_str_of details) = false
                /\ text = decoded_only (utf8_items bdata)))).
Proof.
  destruct (Image_open L bdata) as [img|e] eqn:O.
  2:{ left. exists e. split; [reflexivity|].
      unfold extract_sd_meta. now rewrite O. }
  right. destruct (collect_details img) as [details|e] eqn:C.
  2:{ left. exists img, e. split; [reflexivity|].
      unfold extract_sd_meta. rewrite O, C. simpl.
      destruct (str_eq_dec key_format key_error) as [E|_];
        [discriminate E|reflexivity]. }
  right. rewrite (extract_sd_meta_opened _ _ O C).
  destruct (truthy (pillow_str_of details)) eqn:T.
  - destruct (pillow_str_of details) as [s|b|t] eqn:P.
    + right. exists img, details, Pillow_info_text, s.
      repeat (split; [first [reflexivity|assumption]|]).
      left. repeat (split; [first [reflexivity|assumption]|]).
      intros ->. discriminate T.
    + left. exists img. split; reflexivity.
    + left. exists img. split; reflexivity.
  - right.
    destruct (str_eqb (format img) WEBP) eqn:W.
    + destruct (extract_exif_usercomment L img) as [|c r] eqn:X.
      * exists img, details, Fallback, (decoded_only (utf8_items bdata)).
        repeat (split; [first [reflexivity|assumption]|]).
        right. right. repeat split; first [reflexivity|assumption].
      * exists img, details, Exif_UserComment, (c :: r).
        repeat (split; [first [reflexivity|assumption]|]).
        right. left. apply str_eqb_eq in W.
        repeat (split;
          [first [reflexivity|assumption|symmetry; assumption]|]).
        discriminate.
    + exists img, details, Fallback, (decoded_only (utf8_items bdata)).
      repeat (split; [first [reflexivity|assumption]|]).
      right. right. repeat split; first [reflexivity|assumption].
Qed.

(** X8: a record without an [error] entry is complete: the image was
    opened, and the record holds its format, one of the three sources
    under [foundIn], and the selected text under [RawSnippet], with the
    fields parsed from that text. *)
Theorem error_free_record_is_complete (L : Library) (bdata : bytes) :
  dict_get (extract_sd_meta L bdata) key_error = None ->
  exists img source text,
    Image_open L bdata = Ok img
    /\ In source [Pillow_info_text; Exif_UserComment; Fallback]
    /\ extract_sd_meta L bdata
       = dict_update [(key_format, format img); (key_foundIn, source)]
                     (parse_sd_text text)
    /\ dict_get (extract_sd_meta L bdata) key_format = Some (format img)
    /\ dict_get (extract_sd_meta L bdata) key_foundIn = Some source
    /\ dict_get (extract_sd_meta L bdata) RawSnippet = Some text.
Proof.
  intros NoErr.
  destruct (extract_sd_meta_cases L bdata)
    as [(e & _ & E)|[(img & e & _ & E)|[(img & _ & E)
        |(img & details & source & text & O & _ & E & S)]]];
    try (rewrite E in NoErr; discriminate NoErr).
  exists img, source, text. rewrite E.
  destruct (located_fields (format img) source text) as (F & R & _).
  repeat split; try assumption.
  - destruct S as [(-> & _)|[(-> & _)|(-> & _)]]; simpl; tauto.
  - apply located_format.
Qed.

Lemma error_free_record_is_complete_witness :
  exists img source text,
    Image_open Samples.bare_library Samples.garbled = Ok img
    /\ In source [Pillow_info_text; Exif_UserComment; Fallback]
    /\ extract_sd_meta Samples.bare_library Samples.garbled
       = dict_update [(key_format, format img); (key_foundIn, source)]
                     (parse_sd_text text)
    /\ dict_get (extract_sd_meta Samples.bare_library Samples.garbled)
         key_format = Some (format img)
    /\ dict_get (extract_sd_meta Samples.bare_library Samples.garbled)
         key_foundIn = Some source
    /\ dict_get (extract_sd_meta Samples.bare_library Samples.garbled)
         RawSnippet = Some text.
Proof.
  apply (@error_free_record_is_complete
           Samples.bare_library Samples.garbled).
  reflexivity.
Defined.

(** X9: a record holds an [error] entry or a [RawSnippet] entry, and
    never both. *)
Theorem error_or_RawSnippet (L : Library) (bdata : bytes) :
  dict_get (extract_sd_meta L bdata) key_error = None
  <-> dict_get (extract_sd_meta L bdata) RawSnippet <> None.
Proof.
  destruct (extract_sd_meta_cases L bdata)
    as [(e & _ & E)|[(img & e & _ & E)|[(img & _ & E)
        |(img & details & source & text & _ & _ & E & _)]]];
    rewrite E.
  - split; [discriminate|]. intros H. exfalso. apply H. reflexivity.
  - split; [discriminate|]. intros H. exfalso. apply H. simpl.
    destruct (str_eq_dec key_format RawSnippet) as [X|_]; [discriminate X|].
    reflexivity.
  - split; [discriminate|]. intros H. exfalso. apply H. simpl.
    destruct (str_eq_dec key_format RawSnippet) as [X|_]; [discriminate X|].
    reflexivity.
  - destruct (located_fields (format img) source text) as (_ & R & N).
    rewrite R, N. split; [discriminate|reflexivity].
Qed.

(** X10: the record lacks the [format] entry exactly when the image
    could not be opened, and it is then the [error] entry alone, with
    the decoder's message. *)
Theorem no_format_iff_open_failed (L : Library) (bdata : bytes) :
  dict_get (extract_sd_meta L bdata) key_format = None
  <-> exists e, Image_open L bdata = Raise e
                /\ extract_sd_meta L bdata = [(key_error, e)].
Proof.
  destruct (extract_sd_meta_cases L bdata)
    as [(e & O & E)|[(img & e & O & E)|[(img & O & E)
        |(img & details & source & text & O & _ & E & _)]]];
    rewrite E.
  - split; [eauto|reflexivity].
  - split; [discriminate|]. intros (e' & O' & _). congruence.
  - split; [discriminate|]. intros (e' & O' & _). congruence.
  - rewrite located_format.
    split; [discriminate|]. intros (e' & O' & _). congruence.
Qed.

(** X11: the EXIF UserComment is selected only for a WEBP image whose
    collected properties hold no non-empty [parameters], and the
    selected text is then the non-empty text read from the EXIF
    block. *)
Theorem exif_source_only_for_webp (L : Library) (bdata : bytes) :
  dict_get (extract_sd_meta L bdata) key_foundIn = Some Exif_UserComment ->
  exists img details,
    Image_open L bdata = Ok img
    /\ format img = WEBP
    /\ collect_details img = Ok details
    /\ truthy (pillow_str_of details) = false
    /\ extract_exif_usercomment L img <> []
    /\ dict_get (extract_sd_meta L bdata) RawSnippet
       = Some (extract_exif_usercomment L img).
Proof.
  intros F.
  destruct (extract_sd_meta_cases L bdata)
    as [(e & _ & E)|[(img & e & _ & E)|[(img & _ & E)
        |(img & details & source & text & O & C & E & S)]]];
    rewrite E in F |- *.
  - discriminate F.
  - simpl in F.
    destruct (str_eq_dec key_format key_foundIn); discriminate F.
  - simpl in F.
    destruct (str_eq_dec key_format key_foundIn) as [X|_]; [discriminate X|].
    destruct (str_eq_dec key_foundIn key_foundIn); discriminate F.
  - destruct (located_fields (format img) source text) as (F' & R & _).
    rewrite F' in F. injection F as ->.
    destruct S as [(X & _)|[(_ & T & W & -> & NE)|(X & _)]];
      try discriminate X.
    exists img, details. repeat split; assumption.
Qed.

Lemma exif_source_only_for_webp_witness :
  exists img details,
    Image_open Samples.bad_comment_library Samples.webp_bytes = Ok img
    /\ format img = WEBP
    /\ collect_details img = Ok details
    /\ truthy (pillow_str_of details) = false
    /\ extract_exif_usercomment Samples.bad_comment_library img <> []
    /\ dict_get
         (extract_sd_meta Samples.bad_comment_library Samples.webp_bytes)
         RawSnippet
       = Some (extract_exif_usercomment Samples.bad_comment_library img).
Proof.
  apply (@exif_source_only_for_webp
           Samples.bad_comment_library Samples.webp_bytes).
  reflexivity.
Defined.

(** X12: for an image whose format is not WEBP the EXIF block is never
    read: whatever the EXIF reader and the user-comment decoder are, the
    record is the same. *)
Theorem exif_ignored_unless_webp (L : Library) (bdata : bytes)
  (img : Image) :
  Image_open L bdata = Ok img ->
  format img <> WEBP ->
  forall load load' comment comment',
    extract_sd_meta (mkLibrary (Image_open L) load comment) bdata
    = extract_sd_meta (mkLibrary (Image_open L) load' comment') bdata.
Proof.
  intros O N load load' comment comment'.
  assert (W : str_eqb (format img) WEBP = false).
  { destruct (str_eqb (format img) WEBP) eqn:E; [|reflexivity].
    apply str_eqb_eq in E. contradiction. }
  unfold extract_sd_meta. simpl Image_open. rewrite O, W. reflexivity.
Qed.

Lemma exif_ignored_unless_webp_witness :
  extract_sd_meta
    (mkLibrary (Image_open Samples.png_library)
               (piexif_load Samples.png_library)
               (UserComment_load Samples.png_library))
    Samples.png_bytes
  = extract_sd_meta
      (mkLibrary (Image_open Samples.png_library)
                 (piexif_load Samples.both_library)
                 (UserComment_load Samples.both_library))
      Samples.png_bytes.
Proof.
  apply (@exif_ignored_unless_webp
           Samples.png_library Samples.png_bytes Samples.png_image).
  - reflexivity.
  - discriminate.
Defined.

(** X13: for an image that is neither a PNG nor a WEBP, by format and by
    class, no property is collected: the fallback is selected with the
    decoded bytes, even when the image info holds a [parameters]
    entry. *)
Theorem other_formats_always_fall_back (L : Library) (bdata : bytes)
  (img : Image) :
  Image_open L bdata = Ok img ->
  class img = OtherImageFile ->
  format img <> PNG ->
  format img <> WEBP ->
  dict_get (extract_sd_meta L bdata) key_foundIn = Some Fallback
  /\ dict_get (extract_sd_meta L bdata) RawSnippet
     = Some (decoded_only (utf8_items bdata)).
Proof.
  intros O K NP NW.
  assert (P : str_eqb (format img) PNG = false).
  { destruct (str_eqb (format img) PNG) eqn:E; [|reflexivity].
    apply str_eqb_eq in E. contradiction. }
  assert (W : str_eqb (format img) WEBP = false).
  { destruct (str_eqb (format img) WEBP) eqn:E; [|reflexivity].
    apply str_eqb_eq in E. contradiction. }
  assert (C : collect_details img = Ok []).
  { unfold collect_details. now rewrite P, W, K. }
  rewrite (extract_sd_meta_opened _ _ O C), W.
  change (truthy (pillow_str_of [])) with false. cbv iota.
  destruct (located_fields (format img) Fallback
              (decoded_only (utf8_items bdata))) as (F & R & _).
  split; assumption.
Qed.

Lemma other_formats_always_fall_back_witness :
  dict_get (extract_sd_meta Samples.jpeg_library Samples.jpeg_bytes)
    key_foundIn = Some Fallback
  /\ dict_get (extract_sd_meta Samples.jpeg_library Samples.jpeg_bytes)
       RawSnippet
     = Some (decoded_only (utf8_items Samples.jpeg_bytes)).
Proof.
  apply (@other_formats_always_fall_back
           Samples.jpeg_library Samples.jpeg_bytes Samples.jpeg_image).
  - reflexivity.
  - reflexivity.
  - discriminate.
  - discriminate.
Defined.

(** X14: the EXIF reader yields a non-empty text only when the image
    info has an [exif] entry, that entry loads, and the loaded table has
    a true-valued UserComment; the text is then what the user-comment
    decoder returns or, when that decoder fails on bytes, those bytes
    decoded as UTF-8 with the undecodable ranges dropped. *)
Theorem exif_text_needs_a_user_comment (L : Library) (img : Image) :
  extract_exif_usercomment L img <> [] ->
  exists exif exif_dict uc,
    dict_get (info img) key_exif = Some exif
    /\ piexif_load L exif = Ok exif_dict
    /\ tag_get (exif_ifd exif_dict) UserComment_tag = Some uc
    /\ truthy uc = true
    /\ (UserComment_load L uc = Ok (extract_exif_usercomment L img)
        \/ exists e b,
             UserComment_load L uc = Raise e /\ uc = VBytes b
             /\ extract_exif_usercomment L img
                = decoded_only (utf8_items b)).
Proof.
  unfold extract_exif_usercomment, exif_try_body.
  destruct (dict_get (info img) key_exif) as [exif|] eqn:X; [|tauto].
  destruct (piexif_load L exif) as [exif_dict|e] eqn:P; [|tauto].
  fold (exif_ifd exif_dict).
  destruct (tag_get (exif_ifd exif_dict) UserComment_tag) as [uc|] eqn:G;
    [|tauto].
  destruct (truthy uc) eqn:T; [|tauto].
  intros NE. exists exif, exif_dict, uc.
  repeat (split; [first [reflexivity|assumption]|]).
  destruct (UserComment_load L uc) as [s|e] eqn:U; [left; reflexivity|].
  right. destruct uc as [s|b|t]; simpl in NE |- *; try tauto.
  exists e, b. repeat (split; [reflexivity|]).
  change (decode_utf8 Ignore b) with (fallback_search b) in *.
  rewrite fallback_search_total in *. reflexivity.
Qed.

Lemma exif_text_needs_a_user_comment_witness :
  exists exif exif_dict uc,
    dict_get (info Samples.webp_image) key_exif = Some exif
    /\ piexif_load Samples.bad_comment_library exif = Ok exif_dict
    /\ tag_get (exif_ifd exif_dict) UserComment_tag = Some uc
    /\ truthy uc = true
    /\ (UserComment_load Samples.bad_comment_library uc
        = Ok (extract_exif_usercomment Samples.bad_comment_library
                Samples.webp_image)
        \/ exists e b,
             UserComment_load Samples.bad_comment_library uc = Raise e
             /\ uc = VBytes b
             /\ extract_exif_usercomment Samples.bad_comment_library
                  Samples.webp_image
                = decoded_only (utf8_items b)).
Proof.
  apply (@exif_text_needs_a_user_comment
           Samples.bad_comment_library Samples.webp_image).
  discriminate.
Defined.

(* ---- the fallback decoder ---- *)

Lemma strict_items_agree items : forall s,
  handle_items Strict items = Ok s ->
  handle_items Ignore items = Ok s /\ handle_items Replace items = Ok s.
Proof.
  induction items as [|[c|w] items IH]; intros s; simpl.
  - intros [= <-]. auto.
  - destruct (handle_items Strict items) as [t|]; [|discriminate].
    intros [= <-]. destruct (IH t eq_refl) as [-> ->]. auto.
  - discriminate.
Qed.

(** X15: on bytes that are well-formed UTF-8 (strict decoding succeeds)
    the fallback text is exactly the strict decoding: nothing is dropped
    or changed. *)
Theorem fallback_agrees_with_strict_decoding (bdata : bytes) (s : str) :
  decode_utf8 Strict bdata = Ok s ->
  fallback_search bdata = Ok s.
Proof.
  unfold fallback_search, decode_utf8. intros H.
  now apply strict_items_agree in H as [H _].
Qed.

Lemma fallback_agrees_with_strict_decoding_witness :
  fallback_search [x41; xe2; x82; xac] = Ok [65; 8364]%N.
Proof.
  apply (@fallback_agrees_with_strict_decoding
           [x41; xe2; x82; xac] [65; 8364]%N).
  reflexivity.
Defined.

(** X16: ASCII bytes are decoded to the same code points, one per
    byte. *)
Theorem fallback_keeps_ascii_bytes (bdata : bytes) :
  ascii_bytes bdata ->
  fallback_search bdata = Ok (map Byte.to_N bdata).
Proof.
  intros A. rewrite fallback_search_total. f_equal.
  induction A as [|b bs Hb A IH]; [reflexivity|].
  cbn [utf8_items]. apply N.ltb_lt in Hb. rewrite Hb.
  simpl. now rewrite IH.
Qed.

Lemma fallback_keeps_ascii_bytes_witness :
  fallback_search Samples.hello_bytes
  = Ok (map Byte.to_N Samples.hello_bytes).
Proof.
  apply (@fallback_keeps_ascii_bytes Samples.hello_bytes).
  repeat constructor.
Defined.

(* ------------------------------------------------------------------ *)
(** * More about the presenter *)

Lemma find_unique (c k v : str) : forall meta : dict str,
  NoDup (map lower (dict_keys meta)) ->
  In (k, v) meta -> lower k = lower c ->
  find (fun kv => str_eqb (lower (fst kv)) (lower c)) meta = Some (k, v).
Proof.
  induction meta as [|[k' v'] meta IH]; intros ND I E; [destruct I|].
  inversion ND as [|? ? Hk ND']; subst. simpl.
  destruct I as [[= -> ->]|I].
  - rewrite E, str_eqb_refl. reflexivity.
  - destruct (str_eqb (lower k') (lower c)) eqn:S.
    + exfalso. apply Hk. apply str_eqb_eq in S. rewrite S, <- E.
      apply in_map. change k with (fst (k, v)). now apply in_map.
    + now apply IH.
Qed.

(** X17: when no two keys of the field map agree without regard to
    case, the presenter neither loses nor invents a value: every entry
    comes out with its value under a key that equals its own up to case,
    and every row it outputs comes from such an entry. *)
Theorem presenter_keeps_every_value (meta : dict str) (k v : str) :
  NoDup (map lower (dict_keys meta)) ->
  (In (k, v) meta ->
   exists k', lower k' = lower k /\ In (k', v) (display_dict meta))
  /\ (In (k, v) (display_dict meta) ->
      exists k', lower k' = lower k /\ In (k', v) meta).
Proof.
  intros ND. rewrite display_dict_layout by assumption. split; intros I.
  - destruct (existsb (fun c => same_label c k) order) eqn:R.
    + apply recognized_iff in R as (c & Ic & E).
      exists c. split; [now symmetry|]. apply in_app_iff. left.
      unfold canonical_part. apply in_flat_map. exists c.
      split; [assumption|]. unfold lookup_ci.
      rewrite (@find_unique c k v meta ND I E). simpl. auto.
    + exists k. split; [reflexivity|]. apply in_app_iff. right.
      apply filter_In. split; [assumption|]. cbn [fst]. now rewrite R.
  - apply in_app_iff in I as [I|I].
    + unfold canonical_part in I. apply in_flat_map in I as (c & Ic & I).
      unfold lookup_ci in I.
      destruct (find (fun kv => str_eqb (lower (fst kv)) (lower c)) meta)
        as [[mk w]|] eqn:F; [|destruct I].
      destruct I as [[= <- <-]|[]].
      apply find_some in F as [F S]. apply str_eqb_eq in S.
      exists mk. auto.
    + apply filter_In in I as [I _]. exists k. auto.
Qed.

Lemma presenter_keeps_every_value_witness :
  (In (u "seed", u "2") Samples.shuffled_fields ->
   exists k', lower k' = lower (u "seed")
              /\ In (k', u "2") (display_dict Samples.shuffled_fields))
  /\ (In (u "seed", u "2") (display_dict Samples.shuffled_fields) ->
      exists k', lower k' = lower (u "seed")
                 /\ In (k', u "2") Samples.shuffled_fields).
Proof.
  apply (@presenter_keeps_every_value
           Samples.shuffled_fields (u "seed") (u "2")).
  vm_compute.
  repeat (constructor; [simpl; intros H;
    repeat (destruct H as [H|H]; [discriminate H|]); exact H|]).
  constructor.
Defined.

(** Without that condition a value can be lost: two keys for one label
    end up under the same canonical key. *)
Example presenter_merges_keys_that_differ_by_case :
  display_dict [(u "PROMPT", u "a"); (Prompt, u "b")] = [(Prompt, u "b")].
Proof. reflexivity. Qed.

(* ---- from the parser to the table ---- *)

Lemma dict_remove_last (V : Type) (d : dict V) k v :
  ~ In k (dict_keys d) -> dict_remove (d ++ [(k, v)]) k = d.
Proof.
  induction d as [|[k' v'] d IH]; simpl; intros N.
  - destruct (str_eq_dec k k); congruence.
  - destruct (str_eq_dec k' k) as [E|_]; [tauto|].
    f_equal. apply IH. tauto.
Qed.

Lemma dict_remove_absent (V : Type) (d : dict V) k :
  ~ In k (dict_keys d) -> dict_remove d k = d.
Proof.
  induction d as [|[k' v'] d IH]; simpl; intros N; [reflexivity|].
  destruct (str_eq_dec k' k) as [E|_]; [tauto|].
  f_equal. apply IH. tauto.
Qed.

Lemma parse_sd_text_append text :
  parse_sd_text text = parse_no_prompt_label text ++ [(RawSnippet, text)].
Proof.
  rewrite parse_sd_text_unfold. apply dict_set_absent.
  apply parse_no_prompt_label_not_RawSnippet.
Qed.

(** The fields [main] passes to the presenter are the heuristic's. *)
Lemma displayed_fields_located (f source text : str) :
  displayed_fields
    (dict_update [(key_format, f); (key_foundIn, source)]
                 (parse_sd_text text))
  = parse_no_prompt_label text.
Proof.
  rewrite dict_update_fresh.
  - rewrite parse_sd_text_append. unfold displayed_fields.
    change ([(key_format, f); (key_foundIn, source)]
              ++ parse_no_prompt_label text ++ [(RawSnippet, text)])
      with (((key_format, f) :: (key_foundIn, source)
               :: parse_no_prompt_label text) ++ [(RawSnippet, text)]).
    rewrite dict_remove_last.
    + simpl.
      destruct (str_eq_dec key_format key_foundIn) as [E|_]; [discriminate E|].
      destruct (str_eq_dec key_foundIn key_foundIn) as [_|N]; [|congruence].
      destruct (str_eq_dec key_format key_format) as [_|N]; [|congruence].
      reflexivity.
    + simpl. intros [E|[E|I]]; try discriminate E.
      now apply parse_no_prompt_label_not_RawSnippet in I.
  - apply parse_sd_text_NoDup.
  - intros k I [<-|[<-|[]]];
      apply (@locator_keys_not_parsed text) in I; simpl; tauto.
Qed.

Lemma displayed_fields_parsed text :
  displayed_fields (parse_sd_text text) = parse_no_prompt_label text.
Proof.
  unfold displayed_fields. rewrite parse_sd_text_append.
  rewrite dict_remove_last by apply parse_no_prompt_label_not_RawSnippet.
  assert (N : forall k, In k [key_format; key_foundIn] ->
                ~ In k (dict_keys (parse_no_prompt_label text))).
  { intros k Ik I.
    apply parse_no_prompt_label_capitalised in I as (y & r & E & U).
    simpl in Ik. destruct Ik as [<-|[<-|[]]];
      injection E as <- _; discriminate U. }
  rewrite (@dict_remove_absent _ (parse_no_prompt_label text) key_foundIn)
    by (apply N; simpl; tauto).
  apply dict_remove_absent. apply N. simpl. tauto.
Qed.

Lemma NoDup_map_on (A B : Type) (f : A -> B) (l : list A) :
  (forall a b, In a l -> In b l -> f a = f b -> a = b) ->
  NoDup l -> NoDup (map f l).
Proof.
  intros Inj ND. induction ND as [|x l Hx ND IH]; simpl; constructor.
  - intros I. apply in_map_iff in I as (y & E & Iy).
    apply Hx. rewrite (Inj x y); simpl; auto.
  - apply IH. intros a b Ia Ib. apply Inj; simpl; auto.
Qed.

Lemma NoDup_map_injective (A B : Type) (f : A -> B) (l : list A) :
  NoDup (map f l) ->
  forall a b, In a l -> In b l -> f a = f b -> a = b.
Proof.
  induction l as [|x l IH]; simpl; intros ND a b Ia Ib E; [tauto|].
  inversion ND as [|? ? Hx ND']; subst.
  destruct Ia as [<-|Ia], Ib as [<-|Ib].
  - reflexivity.
  - exfalso. apply Hx. rewrite E. now apply in_map.
  - exfalso. apply Hx. rewrite <- E. now apply in_map.
  - now apply IH.
Qed.

(** X18: for ASCII text the whole table is canonical: the presenter's
    rows for the parsed fields are the fields under the canonical labels
    in canonical order, with no other row. *)
Theorem ascii_text_table_is_canonical (text : str) :
  ascii_text text ->
  display_dict (displayed_fields (parse_sd_text text))
  = canonical_part (displayed_fields (parse_sd_text text))
  /\ forall k, In k (dict_keys
                      (display_dict (displayed_fields (parse_sd_text text))))
               -> In k order.
Proof.
  intros A. rewrite displayed_fields_parsed.
  assert (K : forall k, In k (dict_keys (parse_no_prompt_label text)) ->
                        In k order).
  { intros k I. eapply parse_no_prompt_label_ascii_keys; eassumption. }
  assert (E : display_dict (parse_no_prompt_label text)
              = canonical_part (parse_no_prompt_label text)).
  { rewrite display_dict_layout.
    - rewrite (@filter_nothing
                 (fun k => negb (existsb (fun c => same_label c k) order))).
      + apply app_nil_r.
      + intros k I. apply negb_false_iff, recognized_iff.
        exists k. auto.
    - apply NoDup_map_on; [|apply parse_no_prompt_label_NoDup].
      intros a b Ia Ib. apply (NoDup_map_injective _ _ order_lower_NoDup); auto. }
  split; [exact E|].
  rewrite E. apply canonical_part_keys.
Qed.

Lemma ascii_text_table_is_canonical_witness :
  display_dict (displayed_fields (parse_sd_text (u "a cat seed: 5 STEPS: 20")))
  = canonical_part
      (displayed_fields (parse_sd_text (u "a cat seed: 5 STEPS: 20")))
  /\ forall k,
       In k (dict_keys
               (display_dict
                  (displayed_fields
                     (parse_sd_text (u "a cat seed: 5 STEPS: 20")))))
       -> In k order.
Proof.
  apply (@ascii_text_table_is_canonical (u "a cat seed: 5 STEPS: 20")).
  vm_compute. repeat constructor.
Defined.

Example ascii_sample_table :
  display_dict (displayed_fields (parse_sd_text (u "a cat seed: 5 STEPS: 20")))
  = [(Prompt, u "a cat"); (u "Steps", u "20"); (u "Seed", u "5")].
Proof. reflexivity. Qed.

(* ------------------------------------------------------------------ *)
(** * The viewer *)

(** What is shown for a record that holds a source and parsed fields. *)
Lemma show_meta_located (f source text : str) :
  show_meta (dict_update [(key_format, f); (key_foundIn, source)]
                         (parse_sd_text text))
  = (if str_eqb source Fallback then st_warning fallback_notice
     else st_markdown (found_in_prefix ++ source))
    :: st_table (display_dict (parse_no_prompt_label text))
    :: match text with
       | [] => []
       | _ :: _ => [st_text_area text]
       end.
Proof.
  unfold show_meta.
  destruct (located_fields f source text) as (F & R & E).
  rewrite E, F, R, displayed_fields_located.
  pose proof (parse_no_prompt_label_nonempty text) as NE.
  destruct (parse_no_prompt_label text) as [|kv fields]; [contradiction|].
  destruct text; reflexivity.
Qed.

Lemma show_meta_error_after_format (f e : str) :
  show_meta [(key_format, f); (key_error, e)] = [st_error e].
Proof.
  unfold show_meta. simpl.
  destruct (str_eq_dec key_format key_error) as [E|_]; [discriminate E|].
  destruct (str_eq_dec key_error key_error) as [_|N]; [|congruence].
  reflexivity.
Qed.

Lemma show_meta_error_after_source (f source e : str) :
  show_meta [(key_format, f); (key_foundIn, source); (key_error, e)]
  = [st_error e].
Proof.
  unfold show_meta. simpl.
  destruct (str_eq_dec key_format key_error) as [E|_]; [discriminate E|].
  destruct (str_eq_dec key_foundIn key_error) as [E|_]; [discriminate E|].
  destruct (str_eq_dec key_error key_error) as [_|N]; [|congruence].
  reflexivity.
Qed.


Lemma run_calls_Forall (P : Widget -> Prop) fails calls :
  (forall body, P (st_error body)) -> Forall P calls ->
  Forall P (run_calls fails calls).
Proof.
  intros E F. induction F as [|w calls Pw F IH]; simpl; [constructor|].
  destruct (fails w); repeat constructor; auto.
Qed.



(** X20: two branches of the viewer are never taken: whatever the file,
    the decoders and the Streamlit calls that raise, it shows neither an
    [st.info] (the notice that no parameters were recognized) nor the
    warning that no metadata was found. *)
Theorem viewer_dead_notices (L : Library) (fails : Widget -> option str)
  (selected_file_name : str) (bdata : bytes) :
  Forall (fun w => (forall body, w <> st_info body)
                   /\ w <> st_warning no_metadata_notice)
         (view_file L fails selected_file_name bdata).
Proof.
  unfold view_file.
  destruct (extract_sd_meta_cases L bdata)
    as [(e & O & E)|[(img & e & O & E)|[(img & O & E)
        |(img & details & source & text & O & _ & E & _)]]];
    rewrite O; try rewrite E;
    try (apply run_calls_Forall; [split; discriminate|]).
  - repeat constructor; discriminate.
  - rewrite show_meta_error_after_format. repeat constructor; discriminate.
  - rewrite show_meta_error_after_source. repeat constructor; discriminate.
  - rewrite show_meta_located.
    constructor; [split; discriminate|].
    constructor.
    { destruct (str_eqb source Fallback); split; discriminate. }
    constructor; [split; discriminate|].
    destruct text; repeat constructor; discriminate.
Qed.

(* ------------------------------------------------------------------ *)
(** * No label is passed over *)

Lemma finditer_from_covers : forall s pos skip p,
  skip <= p ->
  RGX_LABEL (skipn p s) <> None ->
  exists m, In m (finditer_from pos skip s)
            /\ m_start m <= pos + p < m_end m.
Proof.
  induction s as [|c s IH]; intros pos skip p Hs R.
  - exfalso. apply R. now destruct p.
  - cbn [finditer_from]. cbv zeta.
    destruct skip as [|skip].
    + destruct (RGX_LABEL (c :: s)) as [[[label value] rest]|] eqn:M.
      * pose proof (RGX_LABEL_width _ M) as W.
        change (length (c :: s)) with (S (length s)) in *.
        destruct (Nat.lt_ge_cases p (S (length s) - length rest)) as [In|Out].
        -- eexists. split; [left; reflexivity|]. cbn [m_start m_end]. lia.
        -- destruct p as [|p]; [lia|].
           destruct (IH (S pos) (S (length s) - length rest - 1) p)
             as (m & I & B); [lia|exact R|].
           exists m. split; [right; exact I|lia].
      * destruct p as [|p]; [contradiction|].
        destruct (IH (S pos) 0 p) as (m & I & B); [lia|exact R|].
        exists m. split; [exact I|lia].
    + destruct p as [|p]; [lia|].
      destruct (IH (S pos) skip p) as (m & I & B); [lia|exact R|].
      exists m. split; [exact I|lia].
Qed.

(** X21: the scan passes over no label: wherever the text has one of
    the ten labels followed by a colon, that position starts a match or
    lies inside one. *)
Theorem every_label_is_inside_a_match (text : str) (p : nat) (a : str) :
  In a label_alts ->
  starts_with (a ++ colon) (skipn p text) = true ->
  exists m, In m (finditer text) /\ m_start m <= p < m_end m.
Proof.
  intros Ia S.
  destruct (@finditer_from_covers text 0 0 p) as (m & I & B).
  - lia.
  - apply RGX_LABEL_label_colon. eauto.
  - exists m. split; [exact I|]. simpl in B. exact B.
Qed.

Lemma every_label_is_inside_a_match_witness :
  exists m, In m (finditer (u "Negative prompt: blurry"))
            /\ m_start m <= 9 < m_end m.
Proof.
  apply (@every_label_is_inside_a_match
           (u "Negative prompt: blurry") 9 Prompt).
  - vm_compute. tauto.
  - reflexivity.
Defined.

(* ------------------------------------------------------------------ *)
(** * Presenting twice *)

Lemma find_app (A : Type) (P : A -> bool) l1 l2 :
  find P (l1 ++ l2) = match find P l1 with
                      | Some x => Some x
                      | None => find P l2
                      end.
Proof.
  induction l1 as [|x l1 IH]; simpl; [reflexivity|].
  destruct (P x); [reflexivity|exact IH].
Qed.

Lemma find_nothing (A : Type) (P : A -> bool) l :
  (forall x, In x l -> P x = false) -> find P l = None.
Proof.
  induction l as [|x l IH]; simpl; intros H; [reflexivity|].
  rewrite (H x) by auto. apply IH. auto.
Qed.

Lemma same_label_refl c : same_label c c = true.
Proof. apply str_eqb_refl. Qed.

Section Twice.
Variable meta : dict str.
Hypothesis ND : NoDup (map lower (dict_keys meta)).

Lemma find_in_entries_absent c ord :
  (forall c', In c' ord -> lower c' <> lower c) ->
  find (fun kv => str_eqb (lower (fst kv)) (lower c)) (flat_map (label_entry meta) ord)
  = None.
Proof.
  intros H. apply find_nothing. intros [k v] I. simpl.
  apply in_flat_map in I as (c' & Ic' & I). unfold label_entry in I.
  destruct (lookup_ci meta c'); [|destruct I].
  destruct I as [[= <- <-]|[]].
  destruct (str_eqb (lower c') (lower c)) eqn:E; [|reflexivity].
  apply str_eqb_eq in E. now apply H in Ic'.
Qed.

Lemma find_in_entries c : forall ord,
  NoDup (map lower ord) -> In c ord ->
  find (fun kv => str_eqb (lower (fst kv)) (lower c)) (flat_map (label_entry meta) ord)
  = match lookup_ci meta c with
    | Some v => Some (c, v)
    | None => None
    end.
Proof.
  induction ord as [|c' ord IH]; intros NDo I; [destruct I|].
  inversion NDo as [|? ? Hc NDo']; subst.
  cbn [flat_map]. rewrite find_app.
  destruct (str_eq_dec c' c) as [->|N].
  - unfold label_entry at 1. destruct (lookup_ci meta c) as [v|].
    + simpl. now rewrite str_eqb_refl.
    + simpl. apply find_in_entries_absent.
      intros c' I' E. apply Hc. rewrite <- E. now apply in_map.
  - destruct I as [E|I]; [contradiction|].
    assert (D : str_eqb (lower c') (lower c) = false).
    { destruct (str_eqb (lower c') (lower c)) eqn:E; [|reflexivity].
      apply str_eqb_eq in E. exfalso. apply Hc. rewrite E.
      now apply in_map. }
    unfold label_entry at 1. destruct (lookup_ci meta c') as [v'|]; simpl.
    + rewrite D. now apply IH.
    + now apply IH.
Qed.

Lemma unrecognized_rows_found_for_no_label c :
  In c order ->
  find (fun kv => str_eqb (lower (fst kv)) (lower c))
       (filter (fun kv => negb (existsb (fun c => same_label c (fst kv)) order))
               meta)
  = None.
Proof.
  intros Ic. apply find_nothing. intros [k v] I. simpl.
  apply filter_In in I as [_ I]. cbn [fst] in I.
  apply negb_true_iff in I.
  destruct (str_eqb (lower k) (lower c)) eqn:E; [|reflexivity].
  assert (R : existsb (fun c => same_label c k) order = true).
  { apply recognized_iff. exists c. split; [assumption|].
    now apply str_eqb_eq. }
  change (existsb (fun c => same_label c k) order = false) in I.
  congruence.
Qed.

Lemma lookup_ci_display c :
  In c order -> lookup_ci (display_dict meta) c = lookup_ci meta c.
Proof.
  intros Ic. rewrite display_dict_layout by exact ND.
  unfold lookup_ci at 1. rewrite find_app.
  change (canonical_part meta) with (flat_map (label_entry meta) order).
  rewrite (@find_in_entries c order order_lower_NoDup Ic).
  destruct (lookup_ci meta c); [reflexivity|].
  now rewrite unrecognized_rows_found_for_no_label.
Qed.

Lemma display_dict_lower_NoDup :
  NoDup (map lower (dict_keys (display_dict meta))).
Proof.
  rewrite display_dict_layout by exact ND.
  unfold dict_keys. rewrite !map_app. apply NoDup_app.
  - apply NoDup_map_on; [|apply canonical_part_NoDup].
    intros a b Ia Ib. apply canonical_part_keys in Ia, Ib.
    now apply (NoDup_map_injective _ _ order_lower_NoDup).
  - now apply filter_lower_keys_NoDup.
  - intros x Ix Iy.
    apply in_map_iff in Ix as (c & <- & Ic). apply canonical_part_keys in Ic.
    apply in_map_iff in Iy as (k & E & Ik).
    apply in_map_iff in Ik as ([k' v] & <- & Ik).
    apply filter_In in Ik as [_ Ik]. cbn [fst] in *.
    apply negb_true_iff in Ik.
    assert (R : existsb (fun c => same_label c k') order = true).
    { apply recognized_iff. exists c. auto. }
    change (existsb (fun c => same_label c k') order = false) in Ik.
    congruence.
Qed.

Lemma display_dict_twice : display_dict (display_dict meta) = display_dict meta.
Proof.
  rewrite (@display_dict_layout (display_dict meta) display_dict_lower_NoDup).
  rewrite (@display_dict_layout meta ND) at 3.
  f_equal.
  - unfold canonical_part. apply flat_map_agree. intros c Ic.
    now rewrite lookup_ci_display.
  - rewrite (@display_dict_layout meta ND), filter_app.
    rewrite (@filter_nothing
               (fun k => negb (existsb (fun c => same_label c k) order))).
    + simpl. rewrite filter_twice. apply filter_ext. intros kv.
      apply andb_diag.
    + intros k I. apply canonical_part_keys in I.
      apply negb_false_iff, recognized_iff. exists k. auto.
Qed.
End Twice.

(** X22: presenting is stable: when no two keys of the field map agree
    without regard to case, presenting the presenter's output again
    changes nothing. *)
Theorem presenting_twice_changes_nothing (meta : dict str) :
  NoDup (map lower (dict_keys meta)) ->
  display_dict (display_dict meta) = display_dict meta.
Proof. apply display_dict_twice. Qed.

Lemma presenting_twice_changes_nothing_witness :
  display_dict (display_dict Samples.shuffled_fields)
  = display_dict Samples.shuffled_fields.
Proof.
  apply (@presenting_twice_changes_nothing Samples.shuffled_fields).
  vm_compute.
  repeat (constructor; [simpl; intros H;
    repeat (destruct H as [H|H]; [discriminate H|]); exact H|]).
  constructor.
Defined.

(* ------------------------------------------------------------------ *)
(** * A label matched more than once *)







